(** * Parallel Stacks: the stack-graph builder

    A shallow embedding of [stackGraph.ts] (frame identity, the split
    directive and [buildGraph]) together with the properties of the merged
    forest.

    Conventions of the embedding:
    - JavaScript arrays are lists; [arr.push(x)] is [arr ++ [x]],
      [arr.includes(x)] is [bool_decide (x ∈ arr)] and [arr.find(p)] is
      stdpp's [list_find], which returns the first matching element
      together with its index.
    - Line, column and thread id are integers ([Z]), the frame id is an
      optional integer; a template literal prints an integer in decimal with
      a leading minus sign for negative values (stdpp's [pretty]), as
      JavaScript does for every integer of magnitude below 10^21.
    - An optional property is an [option]; the template literal prints the
      value [undefined] as the nine letters of that word.
    - The forest is a tree whose child arrays are owned by exactly one
      parent. The variable [currentLevelNodes] refers to the root array or to
      the child array of the node just visited; it is kept as the position
      of that array in the forest (the cursor), and a mutation of the array
      is a change of the forest at that position. The inner loop is then
      shown to be a recursion that descends into the child list of the node
      just visited ([insertFrames]). *)

From Stdlib Require Import ZArith String Ascii.
From stdpp Require Import base tactics option list strings pretty.

Set Warnings "-register-all".
Local Open Scope string_scope.
Local Open Scope Z_scope.
Local Open Scope list_scope.

(** ** Data model *)

(** The [source] property of a frame of the debug adapter protocol. *)
Module Source.
Record t : Type := mk {
  path : option string;
  name : option string
}.
End Source.

(** An element of [ThreadData.frames] (typed [any] in the source): a frame as
    the debug adapter delivers it. The frames of the second test of the
    repository have no [id]. *)
Module RawFrame.
Record t : Type := mk {
  id : option Z;
  name : string;
  source : option Source.t;
  line : Z;
  column : Z
}.
End RawFrame.

Module StackFrame.
Record t : Type := mk {
  id : option Z;
  name : string;
  source : option Source.t;
  line : Z;
  column : Z;
  threadIds : list Z
}.

(** A [StackFrame] read as a frame of the debug adapter (it has all of its
    properties). *)
Definition raw (f : t) : RawFrame.t :=
  RawFrame.mk (id f) (name f) (source f) (line f) (column f).
End StackFrame.

Module GraphNode.
Inductive t : Type := mk {
  id : string;
  frame : StackFrame.t;
  children : list t;
  threadIds : list Z;
  threadNames : list string
}.
End GraphNode.

Module ThreadData.
Record t : Type := mk {
  id : Z;
  name : string;
  frames : list RawFrame.t
}.
End ThreadData.

Global Instance Source_eq_dec : EqDecision Source.t.
Proof. solve_decision. Defined.
Global Instance RawFrame_eq_dec : EqDecision RawFrame.t.
Proof. solve_decision. Defined.

(** ** JavaScript primitives used by the builder *)

(** [s.includes(searchString)] on strings. *)
Fixpoint includes (s searchString : string) : bool :=
  String.prefix searchString s ||
  match s with
  | EmptyString => false
  | String _ s' => includes s' searchString
  end.

(** [`${v}`] for an optional string. *)
Definition template (v : option string) : string :=
  match v with
  | Some s => s
  | None => "undefined"
  end.

(** [frame.source?.path] *)
Definition sourcePath (source : option Source.t) : option string :=
  match source with
  | Some s => Source.path s
  | None => None
  end.

Definition splitMarker : string := "::split::".

(** ** Frame identity *)

(** [isSameFrame(f1, f2)] *)
Definition isSameFrame (f1 : StackFrame.t) (f2 : RawFrame.t) : bool :=
  bool_decide (StackFrame.name f1 = RawFrame.name f2) &&
  bool_decide (StackFrame.line f1 = RawFrame.line f2) &&
  bool_decide (StackFrame.column f1 = RawFrame.column f2) &&
  bool_decide (sourcePath (StackFrame.source f1) = sourcePath (RawFrame.source f2)).

(** The canonical id of line 99:
    [`${frame.source?.path}:${frame.line}:${frame.column}:${frame.name}`] *)
Definition canonicalId (frame : RawFrame.t) : string :=
  template (sourcePath (RawFrame.source frame)) +:+ ":" +:+
  pretty (RawFrame.line frame) +:+ ":" +:+
  pretty (RawFrame.column frame) +:+ ":" +:+
  RawFrame.name frame.

(** ** The graph builder *)

(** The node literal of lines 116-129. *)
Definition newNode (nodeId : string) (frame : RawFrame.t) : GraphNode.t :=
  GraphNode.mk nodeId
    (StackFrame.mk (RawFrame.id frame) (RawFrame.name frame)
       (RawFrame.source frame) (RawFrame.line frame) (RawFrame.column frame) [])
    [] [] [].

(** Lines 134-140: record the thread on the node and on its frame. *)
Definition addThread (thread : ThreadData.t) (node : GraphNode.t) : GraphNode.t :=
  let tid := ThreadData.id thread in
  let f := GraphNode.frame node in
  let member := bool_decide (tid ∈ GraphNode.threadIds node) in
  GraphNode.mk (GraphNode.id node)
    (StackFrame.mk (StackFrame.id f) (StackFrame.name f) (StackFrame.source f)
       (StackFrame.line f) (StackFrame.column f)
       (if bool_decide (tid ∈ StackFrame.threadIds f)
        then StackFrame.threadIds f
        else StackFrame.threadIds f ++ [tid]))
    (GraphNode.children node)
    (if member then GraphNode.threadIds node
     else GraphNode.threadIds node ++ [tid])
    (if member then GraphNode.threadNames node
     else GraphNode.threadNames node ++ [ThreadData.name thread]).

(** The predicate handed to [find] on line 109. *)
Definition reusable (frame : RawFrame.t) (n : GraphNode.t) : bool :=
  isSameFrame (GraphNode.frame n) frame &&
  negb (includes (GraphNode.id n) splitMarker).

(** Line 103. *)
Definition shouldSplit (splitNodes : list string) (frame : RawFrame.t) : bool :=
  bool_decide (canonicalId frame ∈ splitNodes).

(** Line 109: the index and the value of the node to reuse, if any. *)
Definition findNode (splitNodes : list string) (frame : RawFrame.t)
    (currentLevelNodes : list GraphNode.t) : option (nat * GraphNode.t) :=
  if shouldSplit splitNodes frame then None
  else list_find (λ n, reusable frame n = true) currentLevelNodes.

(** Line 114. *)
Definition nodeIdFor (splitNodes : list string) (thread : ThreadData.t)
    (frame : RawFrame.t) : string :=
  if shouldSplit splitNodes frame
  then canonicalId frame +:+ splitMarker +:+ pretty (ThreadData.id thread)
  else canonicalId frame.

(** A node whose child array has the contents [cs]. *)
Definition withChildren (node : GraphNode.t) (cs : list GraphNode.t) : GraphNode.t :=
  GraphNode.mk (GraphNode.id node) (GraphNode.frame node) cs
    (GraphNode.threadIds node) (GraphNode.threadNames node).

(** ** Positions in the forest *)

(** The node reached from a sibling list by a path of child indices
    (root first). *)
Fixpoint nodeAt (level : list GraphNode.t) (p : list nat) : option GraphNode.t :=
  match p with
  | [] => None
  | i :: p' =>
    match level !! i with
    | None => None
    | Some n =>
      match p' with
      | [] => Some n
      | _ => nodeAt (GraphNode.children n) p'
      end
    end
  end.

(** The sibling list found at a position: the root list at the empty path,
    otherwise the child list of the node at that path. *)
Fixpoint levelAt (level : list GraphNode.t) (p : list nat)
    : option (list GraphNode.t) :=
  match p with
  | [] => Some level
  | i :: p' =>
    match level !! i with
    | Some n => levelAt (GraphNode.children n) p'
    | None => None
    end
  end.

(** The forest after the sibling list at a position has been given new
    contents (an array mutated in place is seen by its only owner). *)
Fixpoint setLevelAt (level : list GraphNode.t) (p : list nat)
    (new : list GraphNode.t) : list GraphNode.t :=
  match p with
  | [] => new
  | i :: p' =>
    match level !! i with
    | Some n => <[i := withChildren n (setLevelAt (GraphNode.children n) p' new)]> level
    | None => level
    end
  end.

(** ** The two loops *)

(** The variables of [buildGraph]: the forest, and the position of the
    array that [currentLevelNodes] refers to. *)
Record BuilderState : Type := mkState {
  rootNodes : list GraphNode.t;
  cursor : list nat
}.

(** Lines 109-140 on the array [currentLevelNodes]: the index of [node]
    (found, or pushed at the end), and the array after the thread has been
    recorded on [node]. *)
Definition placeFrame (splitNodes : list string) (thread : ThreadData.t)
    (frame : RawFrame.t) (currentLevelNodes : list GraphNode.t)
    : nat * list GraphNode.t :=
  let '(i, currentLevelNodes) :=
    match findNode splitNodes frame currentLevelNodes with
    | Some (i, _) => (i, currentLevelNodes)
    | None =>
      (length currentLevelNodes,
       currentLevelNodes ++ [newNode (nodeIdFor splitNodes thread frame) frame])
    end in
  (i, alter (addThread thread) i currentLevelNodes).

(** One iteration of the inner loop (lines 97-144); line 143 moves the
    cursor to the children of [node]. The cursor always is the position of
    a sibling list of the forest ([foldl_processFrame]), so the default is
    never used. *)
Definition processFrame (splitNodes : list string) (thread : ThreadData.t)
    (st : BuilderState) (frame : RawFrame.t) : BuilderState :=
  let currentLevelNodes := default [] (levelAt (rootNodes st) (cursor st)) in
  let '(i, level) := placeFrame splitNodes thread frame currentLevelNodes in
  mkState (setLevelAt (rootNodes st) (cursor st) level) (cursor st ++ [i]).

(** One iteration of the outer loop (lines 94-145): the cursor starts at
    the root list (line 95). *)
Definition processThread (splitNodes : list string) (rootNodes : list GraphNode.t)
    (thread : ThreadData.t) : BuilderState :=
  foldl (processFrame splitNodes thread) (mkState rootNodes [])
    (ThreadData.frames thread).

(** The forest after one iteration of the outer loop. *)
Definition insertThread (splitNodes : list string) (forest : list GraphNode.t)
    (thread : ThreadData.t) : list GraphNode.t :=
  rootNodes (processThread splitNodes forest thread).

(** [buildGraph(threadsData, splitNodes)] *)
Definition buildGraph (threadsData : list ThreadData.t) (splitNodes : list string)
    : list GraphNode.t :=
  foldl (insertThread splitNodes) [] threadsData.

(** The path that the [i]-th thread of the input takes through the forest:
    the cursor at the end of the inner loop for that thread. *)
Definition threadWalk (threadsData : list ThreadData.t) (splitNodes : list string)
    (i : nat) : list nat :=
  match threadsData !! i with
  | Some thread =>
    cursor (processThread splitNodes (buildGraph (take i threadsData) splitNodes) thread)
  | None => []
  end.

(** ** The inner loop as a recursion *)

(** The sibling list [currentLevelNodes] after the inner loop has placed the
    given frames in it and beneath it. *)
Fixpoint insertFrames (splitNodes : list string) (thread : ThreadData.t)
    (frames : list RawFrame.t) (currentLevelNodes : list GraphNode.t)
    : list GraphNode.t :=
  match frames with
  | [] => currentLevelNodes
  | frame :: rest =>
    match findNode splitNodes frame currentLevelNodes with
    | Some (i, node) =>
      let node := addThread thread node in
      <[i := withChildren node
               (insertFrames splitNodes thread rest (GraphNode.children node))]>
        currentLevelNodes
    | None =>
      let node := addThread thread (newNode (nodeIdFor splitNodes thread frame) frame) in
      currentLevelNodes ++
        [withChildren node
           (insertFrames splitNodes thread rest (GraphNode.children node))]
    end
  end.

(** The indices of the successive values of [node] while the inner loop
    places the given frames from [currentLevelNodes]. *)
Fixpoint walk (splitNodes : list string) (thread : ThreadData.t)
    (frames : list RawFrame.t) (currentLevelNodes : list GraphNode.t)
    : list nat :=
  match frames with
  | [] => []
  | frame :: rest =>
    match findNode splitNodes frame currentLevelNodes with
    | Some (i, node) =>
      i :: walk splitNodes thread rest (GraphNode.children node)
    | None =>
      length currentLevelNodes :: walk splitNodes thread rest []
    end
  end.

(** ** The examples of the test suite *)

Module Tests.
Definition src (p : string) : option Source.t := Some (Source.mk (Some p) None).

Definition t1 : ThreadData.t :=
  ThreadData.mk 1 "Thread 1"
    [ RawFrame.mk (Some 10) "main" (src "main.cpp") 1 1;
      RawFrame.mk (Some 11) "foo" (src "main.cpp") 10 1;
      RawFrame.mk (Some 12) "bar" (src "main.cpp") 20 1 ].

Definition t2 : ThreadData.t :=
  ThreadData.mk 2 "Thread 2"
    [ RawFrame.mk (Some 20) "main" (src "main.cpp") 1 1;
      RawFrame.mk (Some 21) "foo" (src "main.cpp") 10 1;
      RawFrame.mk (Some 22) "bar" (src "main.cpp") 20 1 ].

Definition d1 : ThreadData.t :=
  ThreadData.mk 1 "T1"
    [ RawFrame.mk None "A" (src "f") 1 1; RawFrame.mk None "B" (src "f") 2 1 ].

Definition d2 : ThreadData.t :=
  ThreadData.mk 2 "T2"
    [ RawFrame.mk None "A" (src "f") 1 1; RawFrame.mk None "C" (src "f") 3 1 ].
End Tests.

(** ** The contract of frame identity, in the words of the specification *)

(** "Absent source path is treated as empty string". *)
Definition pathOrEmpty (source : option Source.t) : string :=
  default "" (sourcePath source).

(** "[sameFrame(a, b)] is true iff function name, line, column, and (possibly
    absent) source path all match exactly; absent source path is treated as
    empty string". *)
Definition sameFrameSpec (a : StackFrame.t) (b : RawFrame.t) : Prop :=
  StackFrame.name a = RawFrame.name b ∧
  StackFrame.line a = RawFrame.line b ∧
  StackFrame.column a = RawFrame.column b ∧
  pathOrEmpty (StackFrame.source a) = pathOrEmpty (RawFrame.source b).

(** The text that the canonical id shows for the path of a frame. *)
Definition pathText (frame : RawFrame.t) : string :=
  template (sourcePath (RawFrame.source frame)).

(** ** Sibling lists *)

(** The test of line 109 for a node that is not a split node. *)
Definition nonSplit (n : GraphNode.t) : bool :=
  negb (includes (GraphNode.id n) splitMarker).

(** No two non-split nodes of a sibling list have the same frame, in the
    sense of [isSameFrame]. *)
Definition distinctSiblings (level : list GraphNode.t) : Prop :=
  ∀ i j ni nj,
    level !! i = Some ni → level !! j = Some nj → i ≠ j →
    nonSplit ni = true → nonSplit nj = true →
    isSameFrame (GraphNode.frame ni) (StackFrame.raw (GraphNode.frame nj)) = false.

(** No two non-split nodes of a sibling list have the same identity. *)
Definition distinctSiblingIds (level : list GraphNode.t) : Prop :=
  ∀ i j ni nj,
    level !! i = Some ni → level !! j = Some nj → i ≠ j →
    nonSplit ni = true → nonSplit nj = true →
    GraphNode.id ni ≠ GraphNode.id nj.

(** Two frames of the debug adapter at the same call site: the same name,
    line, column and source path (the frame ids may differ). *)
Definition sameCallSite (f g : RawFrame.t) : Prop :=
  RawFrame.name f = RawFrame.name g ∧
  RawFrame.line f = RawFrame.line g ∧
  RawFrame.column f = RawFrame.column g ∧
  sourcePath (RawFrame.source f) = sourcePath (RawFrame.source g).

(** ** Members *)

(** The ids and names that [addThread] leaves on a node after one more
    thread has visited it. *)
Definition recordThread (m : list Z * list string) (thread : ThreadData.t)
    : list Z * list string :=
  if bool_decide (ThreadData.id thread ∈ m.1) then m
  else (m.1 ++ [ThreadData.id thread], m.2 ++ [ThreadData.name thread]).

(** The threads of the input, in the order of the input, whose path through
    the forest reaches the position [p]. *)
Definition passing (threadsData : list ThreadData.t) (splitNodes : list string)
    (p : list nat) : list ThreadData.t :=
  omap (λ i, if decide (p `prefix_of` threadWalk threadsData splitNodes i)
             then threadsData !! i else None)
    (seq 0 (length threadsData)).

(** ** A single chain *)

(** The forest with one root and one child under every node but the last,
    one node for each frame, all with the same members. *)
Fixpoint chain (frames : list RawFrame.t) (m : list Z * list string)
    : list GraphNode.t :=
  match frames with
  | [] => []
  | frame :: rest =>
    [GraphNode.mk (canonicalId frame)
       (StackFrame.mk (RawFrame.id frame) (RawFrame.name frame)
          (RawFrame.source frame) (RawFrame.line frame) (RawFrame.column frame) m.1)
       (chain rest m) m.1 m.2]
  end.

(** A frame that [find] can match again: not split, and without the split
    marker in its canonical id. *)
Definition mergeable (splitNodes : list string) (frame : RawFrame.t) : Prop :=
  shouldSplit splitNodes frame = false ∧
  includes (canonicalId frame) splitMarker = false.

(** ** Threads on a chain, by their frames *)

(** The frame sequence [frames] of a thread passes through the chain of
    nodes that leads from the sibling list [level] down to the position
    [p]: the node at each depth of the chain has the frame of the thread at
    that depth, in the sense of [isSameFrame], and the id that a node of
    that frame has for this thread ([nodeIdFor]: the canonical id, with the
    thread id appended when the frame is split). *)
Fixpoint followsChain (splitNodes : list string) (thread : ThreadData.t)
    (frames : list RawFrame.t) (level : list GraphNode.t) (p : list nat)
    {struct p} : bool :=
  match p with
  | [] => true
  | i :: p' =>
    match frames, level !! i with
    | frame :: rest, Some n =>
      isSameFrame (GraphNode.frame n) frame &&
      bool_decide (GraphNode.id n = nodeIdFor splitNodes thread frame) &&
      followsChain splitNodes thread rest (GraphNode.children n) p'
    | _, _ => false
    end
  end.

(** No frame of the thread outside the split set has the split marker in
    its canonical id. *)
Definition markerOnlyBySplit (splitNodes : list string) (thread : ThreadData.t) : Prop :=
  Forall (λ frame, shouldSplit splitNodes frame = false →
                   includes (canonicalId frame) splitMarker = false)
    (ThreadData.frames thread).

(** ** Sample inputs *)

Module Samples.
(** A frame of [main] without a [source]. *)
Definition noSource : RawFrame.t := RawFrame.mk (Some 1) "main" None 1 1.

(** The same frame with a source whose path is the empty string. *)
Definition emptyPath : RawFrame.t :=
  RawFrame.mk (Some 1) "main" (Some (Source.mk (Some "") None)) 1 1.

(** The same frame with a source whose path is the word [undefined]. *)
Definition undefinedPath : RawFrame.t :=
  RawFrame.mk (Some 1) "main" (Some (Source.mk (Some "undefined") None)) 1 1.

(** The node frame built from a frame of the debug adapter. *)
Definition stack (f : RawFrame.t) : StackFrame.t :=
  GraphNode.frame (newNode (canonicalId f) f).

(** A thread whose stack trace could not be fetched. *)
Definition idle : ThreadData.t := ThreadData.mk 7 "idle" [].

Definition absentThread : ThreadData.t := ThreadData.mk 1 "T1" [noSource].
Definition undefinedThread : ThreadData.t := ThreadData.mk 2 "T2" [undefinedPath].

(** A C++ function in a namespace called [split]. *)
Definition nsFrame : RawFrame.t :=
  RawFrame.mk (Some 1) "ns::split::run" (Some (Source.mk (Some "main.cpp") None)) 5 1.
Definition nsThread1 : ThreadData.t := ThreadData.mk 1 "T1" [nsFrame].
Definition nsThread2 : ThreadData.t := ThreadData.mk 2 "T2" [nsFrame].

(** The split set with the canonical id of [foo] in the test suite. *)
Definition splitFoo : list string := ["main.cpp:10:1:foo"].
End Samples.

(** ** The stack source: [getStackGraph] *)

(** What a [catch (e)] receives from a rejected request or from a [throw]:
    [undefined] or [null]; any other value, with its [message] property when
    that is a string; or the [TypeError] that the read [e.message] throws
    when [e] is [undefined] or [null]. *)
Inductive Reason : Type :=
  | Nullish
  | Thrown (message : option string)
  | MessageOfNullish.

(** How an awaited promise ends: it is rejected with a reason, or it gives
    a value. *)
Inductive Outcome (A : Type) : Type :=
  | Rejected (reason : Reason)
  | Resolved (value : A).
Arguments Rejected {A} reason.
Arguments Resolved {A} value.

(** The text that the read [e.message] gives (absent when the value has no
    such property), the text of the [TypeError] above being left open. *)
Inductive MessageText : Type :=
  | Text (message : option string)
  | TypeErrorText.

(** The read [e.message] in a [catch (e)]: it throws when [e] is
    [undefined] or [null]. *)
Definition readMessage (e : Reason) : Outcome MessageText :=
  match e with
  | Nullish => Rejected MessageOfNullish
  | Thrown message => Resolved (Text message)
  | MessageOfNullish => Resolved TypeErrorText
  end.

(** An element of the [threads] array of the debug adapter. *)
Module DapThread.
Record t : Type := mk {
  id : Z;
  name : string
}.
End DapThread.

(** The answer to the [threads] request as line 42 tests it: one for which
    [!threadsResponse || !threadsResponse.threads] holds (kept with the text
    that [JSON.stringify] gives for it), or one with a [threads] array. *)
Inductive ThreadsResponse : Type :=
  | InvalidThreads (json : string)
  | Threads (threads : list DapThread.t).

(** The answer to a [stackTrace] request as line 60 tests it: one for which
    [!stackTraceResponse || !stackTraceResponse.stackFrames] holds, or one
    with a [stackFrames] array (the top of the stack first). *)
Inductive StackTraceResponse : Type :=
  | NoStackFrames
  | StackFrames (stackFrames : list RawFrame.t).

(** The paused debug session: what [customRequest] answers to [threads],
    and to [stackTrace] for a thread id. The answers are the JSON values of
    the debug adapter, so [JSON.stringify] does not throw on them. *)
Module Session.
Record t : Type := mk {
  threads : Outcome ThreadsResponse;
  stackTrace : Z → Outcome StackTraceResponse
}.
End Session.

(** The callback of [threads.map] (lines 52-79). Its [catch] (lines 71-77)
    reads [e.message] for the output channel before it returns the thread
    without frames, so a request rejected with [undefined] or [null] makes
    the callback throw. *)
Definition fetchThreadData (session : Session.t) (thread : DapThread.t)
    : Outcome ThreadData.t :=
  match Session.stackTrace session (DapThread.id thread) with
  | Resolved NoStackFrames =>
    Resolved (ThreadData.mk (DapThread.id thread) (DapThread.name thread) [])
  | Resolved (StackFrames stackFrames) =>
    Resolved (ThreadData.mk (DapThread.id thread) (DapThread.name thread)
                (reverse stackFrames))
  | Rejected e =>
    match readMessage e with
    | Rejected e' => Rejected e'
    | Resolved _ =>
      Resolved (ThreadData.mk (DapThread.id thread) (DapThread.name thread) [])
    end
  end.

(** [Promise.all]: the values in the order of the promises, or the reason
    of a rejected promise. A callback above is only ever rejected with
    [MessageOfNullish] (lemma [fetchThreadData_Rejected]), so which of the
    rejected promises gives the reason makes no difference here; the first
    of the array is taken. *)
Fixpoint promiseAll {A : Type} (promises : list (Outcome A)) : Outcome (list A) :=
  match promises with
  | [] => Resolved []
  | Rejected e :: _ => Rejected e
  | Resolved value :: promises =>
    match promiseAll promises with
    | Rejected e => Rejected e
    | Resolved values => Resolved (value :: values)
    end
  end.

(** The outer [catch] of [getStackGraph] (lines 85-88): it reads
    [e.message] for the output channel, then throws [e] again. *)
Definition rethrow {A : Type} (e : Reason) : Outcome A :=
  match readMessage e with
  | Rejected e' => Rejected e'
  | Resolved _ => Rejected e
  end.

(** [getStackGraph(session, splitNodes)] (lines 30-89), without the lines
    written to the output channel. *)
Definition getStackGraph (session : Session.t) (splitNodes : list string)
    : Outcome (list GraphNode.t) :=
  match Session.threads session with
  | Rejected e => rethrow e
  | Resolved (InvalidThreads json) =>
    rethrow (Thrown (Some ("Invalid threads response: " +:+ json)))
  | Resolved (Threads threads) =>
    if bool_decide (length threads = 0%nat) then Resolved []
    else
      match promiseAll (fetchThreadData session <$> threads) with
      | Rejected e => rethrow e
      | Resolved threadsData => Resolved (buildGraph threadsData splitNodes)
      end
  end.

(** The thread data that the callback of [threads.map] returns for a thread
    when it returns: the trace reversed, or no frames. *)
Definition threadData (session : Session.t) (thread : DapThread.t) : ThreadData.t :=
  ThreadData.mk (DapThread.id thread) (DapThread.name thread)
    match Session.stackTrace session (DapThread.id thread) with
    | Resolved (StackFrames stackFrames) => reverse stackFrames
    | _ => []
    end.

(** The stack trace request of the thread was rejected with [undefined] or
    [null]. *)
Definition rejectedNullish (session : Session.t) (thread : DapThread.t) : bool :=
  match Session.stackTrace session (DapThread.id thread) with
  | Rejected Nullish => true
  | _ => false
  end.

(** The stack trace of the thread was fetched and has a frame. *)
Definition hasFrames (session : Session.t) (thread : DapThread.t) : bool :=
  match Session.stackTrace session (DapThread.id thread) with
  | Resolved (StackFrames (_ :: _)) => true
  | _ => false
  end.

(** ** The panel *)

(** The messages that the panel posts to its web view. *)
Inductive WebviewMessage : Type :=
  | ErrorMessage (text : MessageText)
  | UpdateGraph (data : list GraphNode.t).

(** [_updateGraph()]: the message posted for the active debug session. Its
    [catch] reads [e.message] for the text of the error message. *)
Definition _updateGraph (activeDebugSession : option Session.t)
    : Outcome WebviewMessage :=
  match activeDebugSession with
  | None => Resolved (ErrorMessage (Text (Some "No active debug session")))
  | Some session =>
    match getStackGraph session [] with
    | Resolved graphData => Resolved (UpdateGraph graphData)
    | Rejected e =>
      match readMessage e with
      | Rejected e' => Rejected e'
      | Resolved text => Resolved (ErrorMessage text)
      end
    end
  end.

(** What [_openFile] asks of the editor: nothing, or to open the file and
    put the selection at a position (line and character from zero). *)
Inductive Navigation : Type :=
  | Ignored
  | Reveal (path : string) (line character : Z).

(** [_openFile(source, line, column)] up to the calls of the editor: the
    guard [!source || !source.path] holds for a source without a path and
    for the empty path. *)
Definition _openFile (source : option Source.t) (line column : Z) : Navigation :=
  match source with
  | None => Ignored
  | Some s =>
    match Source.path s with
    | None => Ignored
    | Some path =>
      if bool_decide (path = "") then Ignored
      else Reveal path (line - 1) (column - 1)
    end
  end.

(** The click handler of a node in the web view: the [openFile] message
    with the source, line and column of the frame of the node, as the panel
    answers it. *)
Definition clickNode (n : GraphNode.t) : Navigation :=
  _openFile (StackFrame.source (GraphNode.frame n))
    (StackFrame.line (GraphNode.frame n)) (StackFrame.column (GraphNode.frame n)).

(** The thread-count badge of a node in the web view: drawn when the node
    has more than one thread id, with the number of thread ids as text. *)
Definition badge (n : GraphNode.t) : option nat :=
  if bool_decide (1 < length (GraphNode.threadIds n))%nat
  then Some (length (GraphNode.threadIds n)) else None.

(** The test [d.data.id !== 'root'] by which the web view tells the nodes of
    the forest from the root that it adds to hold them. *)
Definition isVirtualRoot (n : GraphNode.t) : bool :=
  bool_decide (GraphNode.id n = "root").

(** ** The size of a forest *)

(** The number of nodes of a node and its descendants. *)
Fixpoint nodeSize (n : GraphNode.t) : nat :=
  S (sum_list_with nodeSize (GraphNode.children n)).

Definition forestSize (forest : list GraphNode.t) : nat :=
  sum_list_with nodeSize forest.

(** The first thread of the input whose path reaches the position [p]. *)
Definition firstPassing (threadsData : list ThreadData.t) (splitNodes : list string)
    (i : nat) (p : list nat) : Prop :=
  p `prefix_of` threadWalk threadsData splitNodes i ∧
  ∀ k, (k < i)%nat → ¬ p `prefix_of` threadWalk threadsData splitNodes k.

(** ** A sample session *)

Module Sessions.
Definition main : DapThread.t := DapThread.mk 1 "Thread 1".
Definition worker : DapThread.t := DapThread.mk 2 "Thread 2".
Definition lost : DapThread.t := DapThread.mk 3 "Thread 3".

(** Two threads with the stacks of the first test, the top of the stack
    first, and a third thread whose stack trace request fails with an
    error. *)
Definition paused : Session.t :=
  Session.mk (Resolved (Threads [main; worker; lost]))
    (λ threadId,
       if bool_decide (threadId = 1)
       then Resolved (StackFrames (reverse (ThreadData.frames Tests.t1)))
       else if bool_decide (threadId = 2)
       then Resolved (StackFrames (reverse (ThreadData.frames Tests.t2)))
       else Rejected (Thrown (Some "timeout"))).

End Sessions.

(** * Properties *)

(** ** The test suite of the repository *)

Example groups_identical_stacks :
  ∃ main foo bar,
    buildGraph [Tests.t1; Tests.t2] [] = [main] ∧
    StackFrame.name (GraphNode.frame main) = "main" ∧
    GraphNode.id main = "main.cpp:1:1:main" ∧
    GraphNode.threadIds main = [1; 2] ∧
    GraphNode.children main = [foo] ∧
    StackFrame.name (GraphNode.frame foo) = "foo" ∧
    GraphNode.children foo = [bar] ∧
    StackFrame.name (GraphNode.frame bar) = "bar" ∧
    GraphNode.threadIds bar = [1; 2] ∧
    GraphNode.children bar = [].
Proof. vm_compute. do 3 eexists. repeat split. Qed.

Example splits_divergent_stacks :
  ∃ a b c,
    buildGraph [Tests.d1; Tests.d2] [] = [a] ∧
    GraphNode.children a = [b; c] ∧
    GraphNode.threadIds a = [1; 2] ∧
    GraphNode.threadIds b = [1] ∧
    GraphNode.threadIds c = [2].
Proof. vm_compute. do 3 eexists. repeat split. Qed.

(** ** Strings *)

Section strings.
Implicit Types s r : string.

Lemma string_prefix_cons c1 c2 s r :
  String.prefix (String c1 s) (String c2 r) =
  if ascii_dec c1 c2 then String.prefix s r else false.
Proof. done. Qed.

Lemma string_prefix_app s r : String.prefix s (s +:+ r) = true.
Proof.
  induction s as [|c s IH]; [by destruct r|].
  change (String c s +:+ r) with (String c (s +:+ r)).
  rewrite string_prefix_cons. by destruct (ascii_dec c c).
Qed.

Lemma includes_cons c s r :
  includes (String c s) r = String.prefix r (String c s) || includes s r.
Proof. done. Qed.

Lemma includes_prefix s r : String.prefix r s = true → includes s r = true.
Proof. intros H. destruct s; cbn [includes]; by rewrite H. Qed.

Lemma includes_app_r s1 s2 r : includes s2 r = true → includes (s1 +:+ s2) r = true.
Proof.
  intros H. induction s1 as [|c s1 IH]; [done|].
  change (String c s1 +:+ s2) with (String c (s1 +:+ s2)).
  rewrite includes_cons, IH. apply orb_true_r.
Qed.

(** A string with the marker somewhere in the middle includes it. *)
Lemma includes_infix s1 s2 r : includes (s1 +:+ r +:+ s2) r = true.
Proof. apply includes_app_r, includes_prefix, string_prefix_app. Qed.

Lemma includes_colon_cons c s :
  includes (String c s) ":" = bool_decide (c = ":"%char) || includes s ":".
Proof.
  rewrite includes_cons, string_prefix_cons. destruct (ascii_dec ":" c) as [<-|Hne].
  - by destruct s.
  - by rewrite bool_decide_eq_false_2 by congruence.
Qed.

(** Two texts without a colon, each followed by a colon, can be told
    apart from what follows. *)
Lemma app_colon_inj s1 s2 r1 r2 :
  includes s1 ":" = false → includes s2 ":" = false →
  s1 +:+ ":" +:+ r1 = s2 +:+ ":" +:+ r2 → s1 = s2 ∧ r1 = r2.
Proof.
  revert s2. induction s1 as [|c1 s1 IH]; intros [|c2 s2] H1 H2 Heq.
  - simpl in Heq. by simplify_eq.
  - rewrite includes_colon_cons in H2. apply orb_false_iff in H2 as [H2 _].
    apply bool_decide_eq_false in H2. simpl in Heq. by simplify_eq.
  - rewrite includes_colon_cons in H1. apply orb_false_iff in H1 as [H1 _].
    apply bool_decide_eq_false in H1. simpl in Heq. by simplify_eq.
  - rewrite includes_colon_cons in H1, H2.
    apply orb_false_iff in H1 as [_ H1]. apply orb_false_iff in H2 as [_ H2].
    simpl in Heq. injection Heq as -> Heq.
    destruct (IH s2 H1 H2 Heq) as [-> ->]. done.
Qed.

Lemma pretty_N_char_colon x : pretty_N_char x ≠ ":"%char.
Proof. unfold pretty_N_char. by repeat case_match. Qed.

Lemma pretty_N_go_colon x s :
  includes s ":" = false → includes (pretty_N_go x s) ":" = false.
Proof.
  revert s. induction (N.lt_wf_0 x) as [x _ IH]; intros s Hs.
  assert (x = 0 ∨ 0 < x)%N as [->|?] by lia.
  - by rewrite pretty_N_go_0.
  - rewrite pretty_N_go_step by done. apply IH.
    { by apply N.div_lt. }
    rewrite includes_colon_cons, Hs.
    rewrite bool_decide_eq_false_2; [done|apply pretty_N_char_colon].
Qed.

Lemma pretty_N_colon (x : N) : includes (pretty x) ":" = false.
Proof.
  unfold pretty, pretty_N. case_decide; [done|]. by apply pretty_N_go_colon.
Qed.

(** The decimal text of an integer has no colon. *)
Lemma pretty_Z_colon (x : Z) : includes (pretty x) ":" = false.
Proof.
  destruct x as [|p|p]; [done|apply (pretty_N_colon (Npos p))|].
  change (pretty (Z.neg p)) with (String "-"%char (pretty (Npos p))).
  rewrite includes_colon_cons. by rewrite pretty_N_colon.
Qed.
End strings.

(** ** Frame identity *)

Example canonicalId_with_path :
  canonicalId (RawFrame.mk (Some 11) "foo" (Tests.src "main.cpp") 10 1) =
  "main.cpp:10:1:foo".
Proof. reflexivity. Qed.

Example canonicalId_without_source :
  canonicalId Samples.noSource = "undefined:1:1:main".
Proof. reflexivity. Qed.

Example canonicalId_with_empty_path :
  canonicalId Samples.emptyPath = ":1:1:main".
Proof. reflexivity. Qed.

Lemma isSameFrame_true (a : StackFrame.t) (b : RawFrame.t) :
  isSameFrame a b = true ↔
    StackFrame.name a = RawFrame.name b ∧
    StackFrame.line a = RawFrame.line b ∧
    StackFrame.column a = RawFrame.column b ∧
    sourcePath (StackFrame.source a) = sourcePath (RawFrame.source b).
Proof.
  unfold isSameFrame. rewrite !andb_true_iff, !bool_decide_eq_true. tauto.
Qed.

(** C1, as the code has it: [isSameFrame] is true exactly when the names,
    the lines and the columns are equal and the source paths are either both
    absent, or both present and equal. An absent path is a value of its own:
    it matches an absent path only, and never a path that is present, the
    empty string included. *)
Theorem isSameFrame_iff (a : StackFrame.t) (b : RawFrame.t) :
  isSameFrame a b = true ↔
    StackFrame.name a = RawFrame.name b ∧
    StackFrame.line a = RawFrame.line b ∧
    StackFrame.column a = RawFrame.column b ∧
    match sourcePath (StackFrame.source a), sourcePath (RawFrame.source b) with
    | None, None => True
    | Some p, Some q => p = q
    | _, _ => False
    end.
Proof.
  rewrite isSameFrame_true.
  destruct (sourcePath (StackFrame.source a)), (sourcePath (RawFrame.source b));
    intuition congruence.
Qed.

(** C1 as written fails: with an absent path read as the empty string, a
    frame without a source and the same frame with the empty path would be
    the same frame; [isSameFrame] tells them apart. *)
Lemma isSameFrame_absent_vs_empty_path :
  ¬ (isSameFrame (Samples.stack Samples.noSource) Samples.emptyPath = true ↔
     sameFrameSpec (Samples.stack Samples.noSource) Samples.emptyPath).
Proof.
  intros [_ H]. assert (Hs : sameFrameSpec (Samples.stack Samples.noSource) Samples.emptyPath).
  { by repeat split. }
  apply H in Hs. vm_compute in Hs. discriminate.
Qed.

(** C2, as the code has it: frames that are the same under [isSameFrame]
    have the same canonical id; the canonical id, the text
    path:line:column:name with an absent path shown as the word [undefined],
    depends on the path, the line, the column and the name only. Equal
    canonical ids give the same frame when neither path text contains a
    colon and no path that is present is the word [undefined]. *)
Theorem canonicalId_isSameFrame (a : StackFrame.t) (b : RawFrame.t) :
  (isSameFrame a b = true → canonicalId (StackFrame.raw a) = canonicalId b) ∧
  (∀ b', sameCallSite b b' → canonicalId b = canonicalId b') ∧
  (includes (pathText (StackFrame.raw a)) ":" = false →
   includes (pathText b) ":" = false →
   sourcePath (StackFrame.source a) ≠ Some "undefined" →
   sourcePath (RawFrame.source b) ≠ Some "undefined" →
   canonicalId (StackFrame.raw a) = canonicalId b → isSameFrame a b = true).
Proof.
  split_and!.
  - intros (Hn & Hl & Hc & Hp)%isSameFrame_true. unfold canonicalId. simpl.
    by rewrite Hn, Hl, Hc, Hp.
  - intros b' (Hn & Hl & Hc & Hp). unfold canonicalId. by rewrite Hn, Hl, Hc, Hp.
  - unfold pathText, canonicalId. simpl. intros Ha Hb Hua Hub Heq.
    apply app_colon_inj in Heq as [Hp Heq]; [|done..].
    apply app_colon_inj in Heq as [Hl Heq]; [|apply pretty_Z_colon..].
    apply app_colon_inj in Heq as [Hc Hn]; [|apply pretty_Z_colon..].
    apply isSameFrame_true. split_and!; [done|by apply (inj pretty)..|].
    destruct (sourcePath (StackFrame.source a)), (sourcePath (RawFrame.source b));
      simpl in Hp; congruence.
Qed.

Lemma canonicalId_isSameFrame_witness :
  isSameFrame (Samples.stack Samples.emptyPath) Samples.emptyPath = true ∧
  canonicalId (StackFrame.raw (Samples.stack Samples.emptyPath)) = ":1:1:main".
Proof.
  pose proof (canonicalId_isSameFrame (Samples.stack Samples.emptyPath) Samples.emptyPath)
    as (Hfwd & _ & Hbwd).
  assert (Hsame : isSameFrame (Samples.stack Samples.emptyPath) Samples.emptyPath = true).
  { apply Hbwd; [reflexivity|reflexivity|discriminate|discriminate|reflexivity]. }
  split; [exact Hsame|]. rewrite (Hfwd Hsame). reflexivity.
Defined.

(** C2 as written fails: a frame without a source and the same frame with
    the path [undefined] have one canonical id and are not the same frame. *)
Lemma canonicalId_not_injective :
  ¬ (canonicalId (StackFrame.raw (Samples.stack Samples.noSource)) =
       canonicalId Samples.undefinedPath ↔
     isSameFrame (Samples.stack Samples.noSource) Samples.undefinedPath = true).
Proof. intros [H _]. specialize (H eq_refl). vm_compute in H. discriminate. Qed.

(** ** The scan of a sibling list *)

Section find.
Context (splitNodes : list string) (thread : ThreadData.t).
Implicit Types (frame : RawFrame.t) (level : list GraphNode.t).
Implicit Types (node : GraphNode.t) (p : list nat).

Lemma findNode_Some frame level i node :
  findNode splitNodes frame level = Some (i, node) →
  level !! i = Some node ∧ reusable frame node = true ∧
  shouldSplit splitNodes frame = false ∧
  ∀ k y, level !! k = Some y → (k < i)%nat → reusable frame y ≠ true.
Proof.
  unfold findNode. destruct (shouldSplit splitNodes frame); [done|].
  intros (? & ? & ?)%list_find_Some. done.
Qed.

Lemma findNode_None frame level :
  findNode splitNodes frame level = None →
  shouldSplit splitNodes frame = true ∨
  (shouldSplit splitNodes frame = false ∧
   ∀ k y, level !! k = Some y → reusable frame y ≠ true).
Proof.
  unfold findNode. destruct (shouldSplit splitNodes frame); [by left|].
  intros H%list_find_None. right. split; [done|].
  intros k y Hk. by eapply Forall_lookup_1 in H.
Qed.

Lemma findNode_lt frame level i node :
  findNode splitNodes frame level = Some (i, node) → (i < length level)%nat.
Proof. intros (H & _)%findNode_Some. by eapply lookup_lt_Some. Qed.

Lemma nodeAt_cons level i p :
  nodeAt level (i :: p) =
  match level !! i with
  | None => None
  | Some n => match p with [] => Some n | _ => nodeAt (GraphNode.children n) p end
  end.
Proof. done. Qed.

Lemma nodeAt_nil_level p : nodeAt [] p = None.
Proof. by destruct p. Qed.

Lemma nodeAt_ge level i p : (length level ≤ i)%nat → nodeAt level (i :: p) = None.
Proof. intros H. by rewrite nodeAt_cons, lookup_ge_None_2. Qed.

Lemma walk_length frames level :
  length (walk splitNodes thread frames level) = length frames.
Proof.
  revert level. induction frames as [|f rest IH]; intros level; [done|].
  simpl. destruct (findNode _ _ _) as [[i node]|]; simpl; by rewrite IH.
Qed.

(** Positions off the path of the thread keep their node. *)
Lemma nodeAt_insertFrames_off frames level p :
  ¬ p `prefix_of` walk splitNodes thread frames level →
  nodeAt (insertFrames splitNodes thread frames level) p = nodeAt level p.
Proof.
  revert level p. induction frames as [|f rest IH]; intros level p Hp; [done|].
  destruct p as [|i p]; [by destruct Hp; apply prefix_nil|].
  cbn [insertFrames walk] in Hp |- *.
  destruct (findNode _ _ _) as [[j node]|] eqn:Hfind.
  - pose proof (findNode_lt _ _ _ _ Hfind) as Hlt.
    apply findNode_Some in Hfind as (Hj & _).
    destruct (decide (i = j)) as [->|Hne].
    + rewrite !nodeAt_cons, list_lookup_insert_eq, Hj by done.
      destruct p as [|i' p]; [destruct Hp; apply prefix_cons, prefix_nil|].
      cbn [GraphNode.children withChildren addThread].
      apply IH. intros Hpre. by apply Hp, prefix_cons.
    + by rewrite !nodeAt_cons, list_lookup_insert_ne.
  - destruct (decide (i = length level)) as [->|Hne].
    + rewrite (nodeAt_ge level) by done.
      rewrite nodeAt_cons, lookup_app_r, Nat.sub_diag by done.
      cbn [lookup list_lookup].
      destruct p as [|i' p]; [destruct Hp; apply prefix_cons, prefix_nil|].
      cbn [GraphNode.children withChildren addThread newNode].
      rewrite IH, nodeAt_nil_level; [done|].
      intros Hpre. by apply Hp, prefix_cons.
    + rewrite !nodeAt_cons. destruct (decide (i < length level)%nat).
      * by rewrite lookup_app_l.
      * rewrite !lookup_ge_None_2; [done|lia|rewrite length_app; simpl; lia].
Qed.

(** Positions on the path of the thread hold the node that was there (or
    a new one when there was none), with the thread recorded and the
    remaining frames placed beneath. *)
Lemma nodeAt_insertFrames_on frames level p frame :
  p ≠ [] → p `prefix_of` walk splitNodes thread frames level →
  frames !! (length p - 1)%nat = Some frame →
  nodeAt (insertFrames splitNodes thread frames level) p =
    let base := default (newNode (nodeIdFor splitNodes thread frame) frame)
                  (nodeAt level p) in
    Some (withChildren (addThread thread base)
            (insertFrames splitNodes thread (drop (length p) frames)
               (GraphNode.children base))).
Proof.
  revert level p. induction frames as [|f rest IH]; intros level p Hnil Hp Hf; [done|].
  destruct p as [|i p]; [done|]. clear Hnil.
  cbn [insertFrames walk] in Hp |- *.
  destruct (findNode _ _ _) as [[j node]|] eqn:Hfind.
  - pose proof (findNode_lt _ _ _ _ Hfind) as Hlt.
    apply findNode_Some in Hfind as (Hj & _).
    pose proof (prefix_cons_inv_1 _ _ _ _ Hp) as ->.
    apply prefix_cons_inv_2 in Hp.
    rewrite !nodeAt_cons, list_lookup_insert_eq, Hj by done.
    destruct p as [|i' p].
    + simpl in Hf. by simplify_eq.
    + simpl in Hf.
      cbn [GraphNode.children withChildren addThread].
      rewrite (IH _ (i' :: p)); [done|done|done|].
      simpl. by rewrite Nat.sub_0_r.
  - pose proof (prefix_cons_inv_1 _ _ _ _ Hp) as ->.
    apply prefix_cons_inv_2 in Hp.
    rewrite (nodeAt_ge level) by done.
    rewrite nodeAt_cons, lookup_app_r, Nat.sub_diag by done.
    destruct p as [|i' p].
    + simpl in Hf. by simplify_eq.
    + simpl in Hf.
      cbn [GraphNode.children withChildren addThread newNode lookup list_lookup].
      rewrite (IH _ (i' :: p)); [|done|done|].
      * by rewrite nodeAt_nil_level.
      * simpl. by rewrite Nat.sub_0_r.
Qed.

(** A node that was already there at a position of the path is one that
    [find] accepted for the frame at that depth. *)
Lemma walk_reuse frames level p frame n :
  p ≠ [] → p `prefix_of` walk splitNodes thread frames level →
  frames !! (length p - 1)%nat = Some frame →
  nodeAt level p = Some n →
  reusable frame n = true ∧ shouldSplit splitNodes frame = false.
Proof.
  revert level p. induction frames as [|f rest IH]; intros level p Hnil Hp Hf Hn; [done|].
  destruct p as [|i p]; [done|]. clear Hnil.
  cbn [walk] in Hp. destruct (findNode _ _ _) as [[j node]|] eqn:Hfind.
  - apply findNode_Some in Hfind as (Hj & Hre & Hsplit & _).
    pose proof (prefix_cons_inv_1 _ _ _ _ Hp) as ->.
    apply prefix_cons_inv_2 in Hp.
    rewrite nodeAt_cons, Hj in Hn.
    destruct p as [|i' p]; simpl in Hf.
    + by simplify_eq.
    + apply (IH (GraphNode.children node) (i' :: p)); [done|done| |done].
      simpl. by rewrite Nat.sub_0_r.
  - pose proof (prefix_cons_inv_1 _ _ _ _ Hp) as ->.
    by rewrite nodeAt_ge in Hn.
Qed.

Lemma walk_lookup_frame frames level p :
  p ≠ [] → p `prefix_of` walk splitNodes thread frames level →
  is_Some (frames !! (length p - 1)%nat).
Proof.
  intros Hnil Hp%prefix_length. rewrite walk_length in Hp.
  apply lookup_lt_is_Some. destruct p; [done|]. simpl in *. lia.
Qed.

(** The node found at a position after the frames of a thread have been
    placed: untouched off the path of the thread; on the path, a node
    that [find] accepted with the thread recorded on it, or a new node
    for the frame at that depth. *)
Lemma nodeAt_insertFrames_inv frames level p n' :
  nodeAt (insertFrames splitNodes thread frames level) p = Some n' →
  (¬ p `prefix_of` walk splitNodes thread frames level ∧ nodeAt level p = Some n') ∨
  (p `prefix_of` walk splitNodes thread frames level ∧
   ∃ frame cs, frames !! (length p - 1)%nat = Some frame ∧
     ((∃ n, nodeAt level p = Some n ∧ reusable frame n = true ∧
            shouldSplit splitNodes frame = false ∧
            n' = withChildren (addThread thread n) cs) ∨
      (nodeAt level p = None ∧
       n' = withChildren
              (addThread thread (newNode (nodeIdFor splitNodes thread frame) frame))
              cs))).
Proof.
  intros Hn'.
  destruct (decide (p `prefix_of` walk splitNodes thread frames level)) as [Hp|Hp].
  - right. split; [done|].
    assert (p ≠ []) as Hnil by (by intros ->).
    destruct (walk_lookup_frame _ _ _ Hnil Hp) as [frame Hf].
    rewrite (nodeAt_insertFrames_on _ _ _ frame) in Hn' by done.
    simpl in Hn'. injection Hn' as <-. exists frame.
    destruct (nodeAt level p) as [n|] eqn:Hn.
    + destruct (walk_reuse _ _ _ _ _ Hnil Hp Hf Hn) as [? ?].
      eexists. split; [done|]. left. by exists n.
    + eexists. split; [done|]. by right.
  - left. by rewrite nodeAt_insertFrames_off in Hn'.
Qed.

(** Nodes are never removed or moved. *)
Lemma nodeAt_insertFrames_mono frames level p :
  is_Some (nodeAt level p) →
  is_Some (nodeAt (insertFrames splitNodes thread frames level) p).
Proof.
  intros Hn.
  destruct (decide (p `prefix_of` walk splitNodes thread frames level)) as [Hp|Hp].
  - assert (p ≠ []) as Hnil by (intros ->; by destruct Hn).
    destruct (walk_lookup_frame _ _ _ Hnil Hp) as [frame Hf].
    by rewrite (nodeAt_insertFrames_on _ _ _ frame).
  - by rewrite nodeAt_insertFrames_off.
Qed.

Lemma nodeAt_insertFrames_walk frames level p :
  p ≠ [] → p `prefix_of` walk splitNodes thread frames level →
  is_Some (nodeAt (insertFrames splitNodes thread frames level) p).
Proof.
  intros Hnil Hp. destruct (walk_lookup_frame _ _ _ Hnil Hp) as [frame Hf].
  by rewrite (nodeAt_insertFrames_on _ _ _ frame).
Qed.
End find.

(** ** The loops and the recursion *)

Section loop.
Context (splitNodes : list string) (thread : ThreadData.t).
Implicit Types (root lv : list GraphNode.t) (c : list nat).

Lemma withChildren_children (n : GraphNode.t) :
  withChildren n (GraphNode.children n) = n.
Proof. by destruct n. Qed.

Lemma setLevelAt_same root c lv : levelAt root c = Some lv → setLevelAt root c lv = root.
Proof.
  revert root. induction c as [|i c IH]; intros root; simpl.
  - by intros [= ->].
  - destruct (root !! i) as [n|] eqn:Hi; [|done]. intros Hlv.
    rewrite (IH _ Hlv), withChildren_children. by apply list_insert_id.
Qed.

Lemma levelAt_setLevelAt root c new :
  is_Some (levelAt root c) → levelAt (setLevelAt root c new) c = Some new.
Proof.
  revert root. induction c as [|i c IH]; intros root; simpl; [done|].
  destruct (root !! i) as [n|] eqn:Hi; [|by intros [? ?]]. intros Hlv.
  rewrite list_lookup_insert_eq by (by eapply lookup_lt_Some). simpl. by apply IH.
Qed.

Lemma levelAt_snoc root c i :
  levelAt root (c ++ [i]) =
  lv ← levelAt root c; n ← lv !! i; Some (GraphNode.children n).
Proof.
  revert root. induction c as [|j c IH]; intros root; simpl.
  - by destruct (root !! i).
  - destruct (root !! j) as [n|]; [apply IH|done].
Qed.

Lemma setLevelAt_snoc root c lv i n new :
  is_Some (levelAt root c) → lv !! i = Some n →
  setLevelAt (setLevelAt root c lv) (c ++ [i]) new =
  setLevelAt root c (<[i := withChildren n new]> lv).
Proof.
  intros Hc Hi. revert root Hc. induction c as [|j c IH]; intros root Hc; simpl in *.
  - by rewrite Hi.
  - destruct (root !! j) as [m|] eqn:Hj; [|by destruct Hc].
    rewrite list_lookup_insert_eq by (by eapply lookup_lt_Some).
    cbn [GraphNode.children withChildren].
    by rewrite list_insert_insert_eq, IH.
Qed.

Lemma insert_alter_eq {A} (f : A → A) (l : list A) (i : nat) (x : A) :
  <[i := x]> (alter f i l) = <[i := x]> l.
Proof.
  revert i. induction l as [|y l IH]; intros [|i]; simpl; [done..|].
  f_equal. apply IH.
Qed.

(** One iteration of the inner loop and one unfolding of the recursion. *)
Lemma placeFrame_insertFrames frame rest lv :
  ∃ n, (placeFrame splitNodes thread frame lv).2
         !! (placeFrame splitNodes thread frame lv).1 = Some n ∧
    <[(placeFrame splitNodes thread frame lv).1 :=
        withChildren n (insertFrames splitNodes thread rest (GraphNode.children n))]>
      (placeFrame splitNodes thread frame lv).2 =
    insertFrames splitNodes thread (frame :: rest) lv ∧
    (placeFrame splitNodes thread frame lv).1 ::
      walk splitNodes thread rest (GraphNode.children n) =
    walk splitNodes thread (frame :: rest) lv.
Proof.
  unfold placeFrame. cbn [insertFrames walk].
  destruct (findNode splitNodes frame lv) as [[i node]|] eqn:Hfind; cbn [fst snd].
  - apply findNode_Some in Hfind as (Hi & _).
    exists (addThread thread node). split_and!.
    + by rewrite list_lookup_alter_eq, Hi.
    + by rewrite (insert_alter_eq (addThread thread)).
    + done.
  - exists (addThread thread (newNode (nodeIdFor splitNodes thread frame) frame)).
    rewrite alter_app_r_alt, Nat.sub_diag by done. cbn [alter list_alter].
    split_and!.
    + by rewrite list_lookup_middle.
    + by rewrite insert_app_r_alt, Nat.sub_diag by done.
    + done.
Qed.

(** The inner loop from a cursor: the forest changes at the cursor as the
    recursion says, and the cursor follows the nodes visited. *)
Lemma foldl_processFrame frames root c lv :
  levelAt root c = Some lv →
  foldl (processFrame splitNodes thread) (mkState root c) frames =
  mkState (setLevelAt root c (insertFrames splitNodes thread frames lv))
    (c ++ walk splitNodes thread frames lv).
Proof.
  revert root c lv. induction frames as [|frame rest IH]; intros root c lv Hlv.
  { cbn [foldl insertFrames walk]. by rewrite setLevelAt_same, app_nil_r. }
  cbn [foldl]. unfold processFrame at 2. cbn [rootNodes cursor]. rewrite Hlv.
  change (default [] (Some lv)) with lv.
  destruct (placeFrame_insertFrames frame rest lv) as (n & Hn & Hins & Hwalk).
  destruct (placeFrame splitNodes thread frame lv) as [i lv'] eqn:Hplace.
  cbn [fst snd] in *.
  rewrite (IH _ _ (GraphNode.children n)).
  - rewrite (setLevelAt_snoc _ _ _ _ n), Hins by done.
    by rewrite <-Hwalk, <-app_assoc.
  - rewrite levelAt_snoc, levelAt_setLevelAt by done. simpl. by rewrite Hn.
Qed.

Lemma processThread_eq root :
  processThread splitNodes root thread =
  mkState (insertFrames splitNodes thread (ThreadData.frames thread) root)
    (walk splitNodes thread (ThreadData.frames thread) root).
Proof. unfold processThread. by rewrite (foldl_processFrame _ _ _ root). Qed.

Lemma insertThread_eq root :
  insertThread splitNodes root thread =
  insertFrames splitNodes thread (ThreadData.frames thread) root.
Proof. unfold insertThread. by rewrite processThread_eq. Qed.
End loop.

Lemma threadWalk_eq threads splitNodes i :
  threadWalk threads splitNodes i =
  match threads !! i with
  | Some thread =>
    walk splitNodes thread (ThreadData.frames thread)
      (buildGraph (take i threads) splitNodes)
  | None => []
  end.
Proof. unfold threadWalk. destruct (threads !! i); [|done]. by rewrite processThread_eq. Qed.

Lemma levelAt_nodeAt (level : list GraphNode.t) (p : list nat) :
  levelAt level p =
  match p with
  | [] => Some level
  | _ => GraphNode.children <$> nodeAt level p
  end.
Proof.
  revert level. induction p as [|i p IH]; intros level; [done|].
  cbn [levelAt nodeAt]. destruct (level !! i) as [n|]; [|done].
  rewrite IH. by destruct p.
Qed.

(** ** One visit of a node *)

Section visit.
Context (thread : ThreadData.t).
Implicit Types (n : GraphNode.t).

Lemma addThread_id n : GraphNode.id (addThread thread n) = GraphNode.id n.
Proof. done. Qed.

Lemma addThread_raw n :
  StackFrame.raw (GraphNode.frame (addThread thread n)) =
  StackFrame.raw (GraphNode.frame n).
Proof. done. Qed.

Lemma addThread_children n :
  GraphNode.children (addThread thread n) = GraphNode.children n.
Proof. done. Qed.

Lemma addThread_threadIds n :
  GraphNode.threadIds (addThread thread n) =
  if bool_decide (ThreadData.id thread ∈ GraphNode.threadIds n)
  then GraphNode.threadIds n
  else GraphNode.threadIds n ++ [ThreadData.id thread].
Proof. done. Qed.

Lemma elem_of_addThread n t :
  t ∈ GraphNode.threadIds (addThread thread n) ↔
  t ∈ GraphNode.threadIds n ∨ t = ThreadData.id thread.
Proof.
  rewrite addThread_threadIds. case_bool_decide.
  - split; [by left|]. by intros [?| ->].
  - by rewrite elem_of_app, list_elem_of_singleton.
Qed.

Lemma newNode_raw nodeId frame :
  StackFrame.raw (GraphNode.frame (newNode nodeId frame)) = frame.
Proof. by destruct frame. Qed.

Lemma withChildren_threadIds n cs :
  GraphNode.threadIds (withChildren n cs) = GraphNode.threadIds n.
Proof. done. Qed.

Lemma addThread_newNode_threadIds nodeId frame :
  GraphNode.threadIds (addThread thread (newNode nodeId frame)) =
  [ThreadData.id thread].
Proof. done. Qed.
End visit.

Lemma isSameFrame_raw (a a' : StackFrame.t) (b : RawFrame.t) :
  StackFrame.raw a = StackFrame.raw a' → isSameFrame a b = isSameFrame a' b.
Proof. unfold isSameFrame. intros [= _ -> -> -> ->]. done. Qed.

Lemma isSameFrame_refl (a : StackFrame.t) : isSameFrame a (StackFrame.raw a) = true.
Proof. apply isSameFrame_true. done. Qed.

Lemma isSameFrame_sym (a b : StackFrame.t) :
  isSameFrame a (StackFrame.raw b) = isSameFrame b (StackFrame.raw a).
Proof.
  apply eq_true_iff_eq. rewrite !isSameFrame_true. simpl. intuition congruence.
Qed.

(** ** The forest after each thread *)

Section build.
Context (splitNodes : list string).
Implicit Types (threads : list ThreadData.t) (thread : ThreadData.t).
Implicit Types (n : GraphNode.t) (p : list nat).

Lemma buildGraph_snoc threads thread :
  buildGraph (threads ++ [thread]) splitNodes =
  insertThread splitNodes (buildGraph threads splitNodes) thread.
Proof. unfold buildGraph. by rewrite foldl_app. Qed.

Lemma threadWalk_snoc_lt threads thread i :
  (i < length threads)%nat →
  threadWalk (threads ++ [thread]) splitNodes i = threadWalk threads splitNodes i.
Proof.
  intros Hi. unfold threadWalk.
  by rewrite lookup_app_l, take_app_le by lia.
Qed.

Lemma threadWalk_snoc_eq threads thread :
  threadWalk (threads ++ [thread]) splitNodes (length threads) =
  walk splitNodes thread (ThreadData.frames thread) (buildGraph threads splitNodes).
Proof.
  rewrite threadWalk_eq. by rewrite list_lookup_middle, take_app_length.
Qed.

Lemma threadWalk_ge threads i :
  (length threads ≤ i)%nat → threadWalk threads splitNodes i = [].
Proof. intros Hi. unfold threadWalk. by rewrite lookup_ge_None_2. Qed.

(** The nodes of the forest after one more thread. *)
Lemma nodeAt_buildGraph_snoc threads thread p n' :
  nodeAt (buildGraph (threads ++ [thread]) splitNodes) p = Some n' →
  let forest := buildGraph threads splitNodes in
  let w := threadWalk (threads ++ [thread]) splitNodes (length threads) in
  (¬ p `prefix_of` w ∧ nodeAt forest p = Some n') ∨
  (p `prefix_of` w ∧
   ∃ frame cs, ThreadData.frames thread !! (length p - 1)%nat = Some frame ∧
     ((∃ n, nodeAt forest p = Some n ∧ reusable frame n = true ∧
            shouldSplit splitNodes frame = false ∧
            n' = withChildren (addThread thread n) cs) ∨
      (nodeAt forest p = None ∧
       n' = withChildren
              (addThread thread (newNode (nodeIdFor splitNodes thread frame) frame))
              cs))).
Proof.
  rewrite buildGraph_snoc, threadWalk_snoc_eq, insertThread_eq.
  apply nodeAt_insertFrames_inv.
Qed.

(** Every position on the path of a thread holds a node. *)
Lemma threadWalk_nodeAt threads i p :
  p ≠ [] → p `prefix_of` threadWalk threads splitNodes i →
  is_Some (nodeAt (buildGraph threads splitNodes) p).
Proof.
  revert i p. induction threads as [|thread threads IH] using rev_ind; intros i p Hnil Hp.
  { rewrite threadWalk_ge in Hp by (simpl; lia). by apply prefix_nil_inv in Hp. }
  rewrite buildGraph_snoc, insertThread_eq.
  destruct (decide (i < length threads)%nat) as [Hlt|Hge].
  - rewrite threadWalk_snoc_lt in Hp by done.
    apply nodeAt_insertFrames_mono. by eapply IH.
  - destruct (decide (i = length threads)) as [->|Hne].
    + rewrite threadWalk_snoc_eq in Hp. by apply nodeAt_insertFrames_walk.
    + rewrite threadWalk_ge in Hp by (rewrite length_app; simpl; lia).
      by apply prefix_nil_inv in Hp.
Qed.

(** A property of single nodes that holds for a new node with its first
    thread, and is kept when a thread is recorded on a node accepted by
    [find], holds for every node of the forest. *)
Lemma buildGraph_node_ind (P : GraphNode.t → Prop) :
  (∀ n cs, P n → P (withChildren n cs)) →
  (∀ thread frame,
     P (addThread thread (newNode (nodeIdFor splitNodes thread frame) frame))) →
  (∀ thread frame n,
     P n → reusable frame n = true → shouldSplit splitNodes frame = false →
     P (addThread thread n)) →
  ∀ threads p n, nodeAt (buildGraph threads splitNodes) p = Some n → P n.
Proof.
  intros Hcs Hnew Hreuse threads.
  induction threads as [|thread threads IH] using rev_ind; intros p n' Hn'.
  { by rewrite nodeAt_nil_level in Hn'. }
  apply nodeAt_buildGraph_snoc in Hn'
    as [[_ Hn]|(_ & frame & cs & _ & [(n & Hn & Hre & Hsp & ->)|(_ & ->)])].
  - by eapply IH.
  - apply Hcs. eapply Hreuse; [by eapply IH|done..].
  - apply Hcs, Hnew.
Qed.
End build.

(** ** Thread membership *)

Section membership.
Context (splitNodes : list string).
Implicit Types (threads : list ThreadData.t) (thread : ThreadData.t).
Implicit Types (n : GraphNode.t) (p : list nat).

Lemma passing_snoc threads thread p t :
  (∃ i th, (threads ++ [thread]) !! i = Some th ∧ ThreadData.id th = t ∧
           p `prefix_of` threadWalk (threads ++ [thread]) splitNodes i) ↔
  (∃ i th, threads !! i = Some th ∧ ThreadData.id th = t ∧
           p `prefix_of` threadWalk threads splitNodes i) ∨
  (ThreadData.id thread = t ∧
   p `prefix_of` threadWalk (threads ++ [thread]) splitNodes (length threads)).
Proof.
  split.
  - intros (i & th & Hi & Hid & Hp).
    apply lookup_snoc_Some in Hi as [[Hlt Hi]|[-> ->]].
    + left. exists i, th. by rewrite threadWalk_snoc_lt in Hp.
    + by right.
  - intros [(i & th & Hi & Hid & Hp)|[Hid Hp]].
    + exists i, th. pose proof (lookup_lt_Some _ _ _ Hi).
      rewrite threadWalk_snoc_lt by done. split; [|done].
      by apply lookup_app_l_Some.
    + exists (length threads), thread. by rewrite list_lookup_middle.
Qed.

Lemma threadIds_passing threads p n :
  nodeAt (buildGraph threads splitNodes) p = Some n →
  ∀ t, t ∈ GraphNode.threadIds n ↔
    ∃ i th, threads !! i = Some th ∧ ThreadData.id th = t ∧
            p `prefix_of` threadWalk threads splitNodes i.
Proof.
  revert p n. induction threads as [|thread threads IH] using rev_ind; intros p n' Hn' t.
  { by rewrite nodeAt_nil_level in Hn'. }
  assert (p ≠ []) as Hnil by (by intros ->).
  rewrite passing_snoc.
  apply nodeAt_buildGraph_snoc in Hn'
    as [[Hoff Hn]|(Hon & frame & cs & _ & [(n & Hn & _ & _ & ->)|(Hn & ->)])].
  - rewrite (IH _ _ Hn). split; [by left|]. by intros [?|[_ ?]].
  - rewrite withChildren_threadIds, elem_of_addThread, (IH _ _ Hn). split.
    + intros [?| ->]; [by left|by right].
    + intros [?|[<- _]]; [by left|by right].
  - rewrite withChildren_threadIds, addThread_newNode_threadIds.
    rewrite list_elem_of_singleton. split.
    + intros ->. by right.
    + intros [(i & th & Hi & Hid & Hp)|[<- _]]; [|done].
      destruct (threadWalk_nodeAt splitNodes threads i p Hnil Hp) as [? ?].
      congruence.
Qed.

Lemma passing_snoc_list threads thread p :
  passing (threads ++ [thread]) splitNodes p =
  passing threads splitNodes p ++
  (if decide (p `prefix_of` threadWalk (threads ++ [thread]) splitNodes (length threads))
   then [thread] else []).
Proof.
  unfold passing. rewrite length_app, seq_app, omap_app. f_equal.
  - apply list_omap_ext, Forall_Forall2_diag, Forall_forall.
    intros i [_ Hi]%elem_of_seq.
    by rewrite threadWalk_snoc_lt, lookup_app_l by lia.
  - simpl. rewrite list_lookup_middle by done. by case_decide.
Qed.

Lemma elem_of_passing threads p thread :
  thread ∈ passing threads splitNodes p ↔
  ∃ i, threads !! i = Some thread ∧ p `prefix_of` threadWalk threads splitNodes i.
Proof.
  unfold passing. rewrite list_elem_of_omap. split.
  - intros (i & _ & Hi). case_decide; [|done]. by exists i.
  - intros (i & Hi & Hp). exists i. split.
    + apply elem_of_seq. pose proof (lookup_lt_Some _ _ _ Hi). lia.
    + by rewrite decide_True.
Qed.

Lemma addThread_recordThread thread n :
  (GraphNode.threadIds (addThread thread n), GraphNode.threadNames (addThread thread n)) =
  recordThread (GraphNode.threadIds n, GraphNode.threadNames n) thread.
Proof.
  unfold recordThread. cbn [addThread GraphNode.threadIds GraphNode.threadNames fst snd].
  by case_bool_decide.
Qed.

(** The member lists of a node are what the passing threads leave on it,
    one after the other. *)
Lemma members_passing threads p n :
  nodeAt (buildGraph threads splitNodes) p = Some n →
  (GraphNode.threadIds n, GraphNode.threadNames n) =
  foldl recordThread ([], []) (passing threads splitNodes p).
Proof.
  revert p n. induction threads as [|thread threads IH] using rev_ind; intros p n' Hn'.
  { by rewrite nodeAt_nil_level in Hn'. }
  assert (p ≠ []) as Hnil by (by intros ->).
  rewrite passing_snoc_list, foldl_app.
  apply nodeAt_buildGraph_snoc in Hn'
    as [[Hoff Hn]|(Hon & frame & cs & _ & [(n & Hn & _ & _ & ->)|(Hn & ->)])].
  - rewrite decide_False by done. by apply IH.
  - rewrite decide_True by done. cbn [foldl]. rewrite <-(IH _ _ Hn).
    apply (addThread_recordThread thread n).
  - rewrite decide_True by done.
    replace (passing threads splitNodes p) with (@nil ThreadData.t); [done|].
    symmetry. apply elem_of_nil_inv. intros th (i & Hi & Hp)%elem_of_passing.
    destruct (threadWalk_nodeAt splitNodes threads i p Hnil Hp). congruence.
Qed.

Lemma addThread_NoDup thread n :
  NoDup (GraphNode.threadIds n) → NoDup (GraphNode.threadIds (addThread thread n)).
Proof.
  intros Hn. rewrite addThread_threadIds. case_bool_decide; [done|].
  apply NoDup_app. split_and!; [done| |apply NoDup_singleton].
  intros x Hx ->%list_elem_of_singleton. done.
Qed.

Lemma addThread_names_length thread n :
  length (GraphNode.threadNames n) = length (GraphNode.threadIds n) →
  length (GraphNode.threadNames (addThread thread n)) =
  length (GraphNode.threadIds (addThread thread n)).
Proof.
  intros Hn. cbn [addThread GraphNode.threadNames GraphNode.threadIds].
  case_bool_decide; [done|]. rewrite !length_app, Hn. done.
Qed.

Lemma threadIds_NoDup threads p n :
  nodeAt (buildGraph threads splitNodes) p = Some n →
  NoDup (GraphNode.threadIds n) ∧
  length (GraphNode.threadNames n) = length (GraphNode.threadIds n).
Proof.
  revert threads p n. apply buildGraph_node_ind.
  - intros n cs Hn. done.
  - intros thread frame. split; [apply NoDup_singleton|done].
  - intros thread frame n [Hn1 Hn2] _ _.
    split; [by apply addThread_NoDup|by apply addThread_names_length].
Qed.
End membership.

(** ** What a later thread leaves alone *)

Section keeps.
Context (splitNodes : list string).
Implicit Types (threads : list ThreadData.t) (thread : ThreadData.t).
Implicit Types (n : GraphNode.t) (p : list nat).

(** The fields of a node that a visit can change only grow at the end. *)
Lemma addThread_grows thread n :
  GraphNode.threadIds n `prefix_of` GraphNode.threadIds (addThread thread n) ∧
  GraphNode.threadNames n `prefix_of` GraphNode.threadNames (addThread thread n) ∧
  StackFrame.threadIds (GraphNode.frame n) `prefix_of`
    StackFrame.threadIds (GraphNode.frame (addThread thread n)).
Proof.
  cbn [addThread GraphNode.threadIds GraphNode.threadNames GraphNode.frame
       StackFrame.threadIds].
  split_and!; case_bool_decide; done || by apply prefix_app_r.
Qed.

Lemma insertFrames_keeps thread frames level p n :
  nodeAt level p = Some n →
  ∃ n', nodeAt (insertFrames splitNodes thread frames level) p = Some n' ∧
    GraphNode.id n' = GraphNode.id n ∧
    StackFrame.raw (GraphNode.frame n') = StackFrame.raw (GraphNode.frame n) ∧
    GraphNode.threadIds n `prefix_of` GraphNode.threadIds n' ∧
    GraphNode.threadNames n `prefix_of` GraphNode.threadNames n' ∧
    StackFrame.threadIds (GraphNode.frame n) `prefix_of`
      StackFrame.threadIds (GraphNode.frame n').
Proof.
  intros Hn.
  destruct (decide (p `prefix_of` walk splitNodes thread frames level)) as [Hp|Hp].
  - assert (p ≠ []) as Hnil by (by intros ->).
    destruct (walk_lookup_frame _ _ _ _ _ Hnil Hp) as [frame Hf].
    rewrite (nodeAt_insertFrames_on _ _ _ _ _ frame), Hn by done.
    eexists. split; [done|]. split; [done|]. split; [done|].
    apply (addThread_grows thread n).
  - rewrite nodeAt_insertFrames_off by done. by exists n.
Qed.

Lemma threadWalk_length threads i thread :
  threads !! i = Some thread →
  length (threadWalk threads splitNodes i) = length (ThreadData.frames thread).
Proof. intros Hi. rewrite threadWalk_eq, Hi. apply walk_length. Qed.

Lemma threadWalk_take threads i thread d :
  threads !! i = Some thread → (d < length (ThreadData.frames thread))%nat →
  let p := take (S d) (threadWalk threads splitNodes i) in
  p ≠ [] ∧ length p = S d ∧ p `prefix_of` threadWalk threads splitNodes i.
Proof.
  intros Hi Hd p. pose proof (threadWalk_length _ _ _ Hi) as Hlen.
  assert (length p = S d) as Hp by (unfold p; rewrite length_take; lia).
  split_and!; [by intros Hnil; rewrite Hnil in Hp|done|apply prefix_take].
Qed.

(** The position of a frame on the path of its thread holds a node with
    that frame, in the sense of [isSameFrame]. *)
Lemma threadWalk_frames threads i thread d frame :
  threads !! i = Some thread → ThreadData.frames thread !! d = Some frame →
  ∃ n, nodeAt (buildGraph threads splitNodes)
         (take (S d) (threadWalk threads splitNodes i)) = Some n ∧
       isSameFrame (GraphNode.frame n) frame = true.
Proof.
  revert i. induction threads as [|t threads IH] using rev_ind; intros i Hi Hf; [done|].
  pose proof (lookup_lt_Some _ _ _ Hf) as Hd.
  destruct (threadWalk_take _ _ _ d Hi Hd) as (Hnil & Hlen & Hp).
  apply lookup_snoc_Some in Hi as [[Hlt Hi]|[-> ->]].
  - rewrite threadWalk_snoc_lt, buildGraph_snoc, insertThread_eq by done.
    destruct (IH i Hi Hf) as (n & Hn & Hsame).
    destruct (insertFrames_keeps t (ThreadData.frames t) _ _ _ Hn)
      as (n' & Hn' & _ & Hraw & _).
    exists n'. split; [done|]. by rewrite (isSameFrame_raw _ _ _ Hraw).
  - rewrite threadWalk_snoc_eq in Hnil, Hlen, Hp |- *.
    rewrite buildGraph_snoc, insertThread_eq.
    rewrite (nodeAt_insertFrames_on _ _ _ _ _ frame); [|done|done|].
    2: { by rewrite Hlen, Nat.sub_1_r. }
    eexists. split; [done|].
    cbn [withChildren GraphNode.frame].
    rewrite (isSameFrame_raw _ _ _ (addThread_raw _ _)).
    destruct (nodeAt _ _) as [n|] eqn:Hn; simpl.
    + eapply walk_reuse in Hn as [Hre _]; [|done|done|by rewrite Hlen, Nat.sub_1_r].
      by apply andb_true_iff in Hre as [? _].
    + apply isSameFrame_true. done.
Qed.

(** Every node was created for one frame of one thread, the first thread
    of the input whose path reaches the node; the node still has that
    frame and the id it was given then. *)
Lemma node_creator threads p n :
  nodeAt (buildGraph threads splitNodes) p = Some n →
  ∃ i thread frame,
    threads !! i = Some thread ∧
    p `prefix_of` threadWalk threads splitNodes i ∧
    (∀ j, (j < i)%nat → ¬ p `prefix_of` threadWalk threads splitNodes j) ∧
    ThreadData.frames thread !! (length p - 1)%nat = Some frame ∧
    StackFrame.raw (GraphNode.frame n) = frame ∧
    GraphNode.id n = nodeIdFor splitNodes thread frame.
Proof.
  revert p n. induction threads as [|t threads IH] using rev_ind; intros p n' Hn'.
  { by rewrite nodeAt_nil_level in Hn'. }
  assert (p ≠ []) as Hnil by (by intros ->).
  assert (∀ n, nodeAt (buildGraph threads splitNodes) p = Some n →
    ∃ i thread frame,
      (threads ++ [t]) !! i = Some thread ∧
      p `prefix_of` threadWalk (threads ++ [t]) splitNodes i ∧
      (∀ j, (j < i)%nat → ¬ p `prefix_of` threadWalk (threads ++ [t]) splitNodes j) ∧
      ThreadData.frames thread !! (length p - 1)%nat = Some frame ∧
      StackFrame.raw (GraphNode.frame n) = frame ∧
      GraphNode.id n = nodeIdFor splitNodes thread frame) as Hold.
  { intros n (i & thread & frame & Hi & Hp & Hfirst & Hf & Hraw & Hid)%IH.
    pose proof (lookup_lt_Some _ _ _ Hi) as Hlt.
    exists i, thread, frame. split_and!; [by apply lookup_app_l_Some| |
      |done..].
    - by rewrite threadWalk_snoc_lt.
    - intros j Hj. rewrite threadWalk_snoc_lt by lia. by apply Hfirst. }
  apply nodeAt_buildGraph_snoc in Hn'
    as [[Hoff Hn]|(Hon & frame & cs & Hf & [(n & Hn & _ & _ & ->)|(Hn & ->)])].
  - by apply Hold.
  - exact (Hold n Hn).
  - exists (length threads), t, frame.
    split_and!; [by rewrite list_lookup_middle|done| |done|apply newNode_raw|done].
    intros j Hj. rewrite threadWalk_snoc_lt by done. intros Hp.
    destruct (threadWalk_nodeAt splitNodes threads j p Hnil Hp). congruence.
Qed.
End keeps.

(** ** The split directive *)

Section split.
Context (splitNodes : list string).
Implicit Types (threads : list ThreadData.t) (thread : ThreadData.t).
Implicit Types (n : GraphNode.t) (p : list nat).

Lemma nodeIdFor_split thread frame :
  shouldSplit splitNodes frame = true →
  nodeIdFor splitNodes thread frame =
  canonicalId frame +:+ splitMarker +:+ pretty (ThreadData.id thread).
Proof. unfold nodeIdFor. by intros ->. Qed.

Lemma nodeIdFor_split_marker thread frame :
  shouldSplit splitNodes frame = true →
  includes (nodeIdFor splitNodes thread frame) splitMarker = true.
Proof. intros H. rewrite nodeIdFor_split by done. apply includes_infix. Qed.

(** A frame whose canonical id is in the split set starts a new node at
    the end of the sibling list; the siblings stay as they are. *)
Lemma insertFrames_split thread frame rest level :
  shouldSplit splitNodes frame = true →
  insertFrames splitNodes thread (frame :: rest) level =
  level ++
    [withChildren
       (addThread thread
          (newNode (canonicalId frame +:+ splitMarker +:+
                    pretty (ThreadData.id thread)) frame))
       (insertFrames splitNodes thread rest [])].
Proof.
  intros H. cbn [insertFrames]. unfold findNode. rewrite H.
  by rewrite nodeIdFor_split.
Qed.

Lemma placeFrame_split thread frame level :
  shouldSplit splitNodes frame = true →
  placeFrame splitNodes thread frame level =
  (length level,
   level ++
     [addThread thread
        (newNode (canonicalId frame +:+ splitMarker +:+
                  pretty (ThreadData.id thread)) frame)]).
Proof.
  intros H. unfold placeFrame, findNode. rewrite H.
  rewrite alter_app_r_alt, Nat.sub_diag by done.
  by rewrite nodeIdFor_split.
Qed.

(** In the finished forest the node of a split frame has the split id, the
    frame, and the one thread it was created for; no other thread of the
    input passes through it. *)
Lemma split_node threads i thread d frame :
  threads !! i = Some thread → ThreadData.frames thread !! d = Some frame →
  shouldSplit splitNodes frame = true →
  ∃ n, nodeAt (buildGraph threads splitNodes)
         (take (S d) (threadWalk threads splitNodes i)) = Some n ∧
    GraphNode.id n =
      canonicalId frame +:+ splitMarker +:+ pretty (ThreadData.id thread) ∧
    StackFrame.raw (GraphNode.frame n) = frame ∧
    GraphNode.threadIds n = [ThreadData.id thread] ∧
    GraphNode.threadNames n = [ThreadData.name thread] ∧
    ∀ j, take (S d) (threadWalk threads splitNodes i)
           `prefix_of` threadWalk threads splitNodes j → j = i.
Proof.
  revert i. induction threads as [|t threads IH] using rev_ind;
    intros i Hi Hf Hsplit; [done|].
  pose proof (lookup_lt_Some _ _ _ Hf) as Hd.
  destruct (threadWalk_take splitNodes _ _ _ d Hi Hd) as (Hnil & Hlen & Hp).
  assert (∀ j, (length (threads ++ [t]) ≤ j)%nat →
    ¬ take (S d) (threadWalk (threads ++ [t]) splitNodes i)
        `prefix_of` threadWalk (threads ++ [t]) splitNodes j) as Hout.
  { intros j Hj Hpre. rewrite (threadWalk_ge _ _ j) in Hpre by done.
    by apply prefix_nil_inv in Hpre. }
  apply lookup_snoc_Some in Hi as [[Hlt Hi]|[-> ->]].
  - rewrite threadWalk_snoc_lt in Hout |- * by done.
    rewrite buildGraph_snoc, insertThread_eq.
    destruct (IH i Hi Hf Hsplit) as (n & Hn & Hid & Hraw & Hids & Hnames & Hexcl).
    set (p := take (S d) (threadWalk threads splitNodes i)) in *.
    assert (¬ p `prefix_of` walk splitNodes t (ThreadData.frames t)
                (buildGraph threads splitNodes)) as Hoff.
    { intros Hon. rewrite threadWalk_snoc_lt in Hnil by done.
      destruct (walk_lookup_frame _ _ _ _ _ Hnil Hon) as [f' Hf'].
      destruct (walk_reuse _ _ _ _ _ _ _ Hnil Hon Hf' Hn) as [Hre _].
      apply andb_true_iff in Hre as [_ Hre]. apply negb_true_iff in Hre.
      rewrite Hid, includes_infix in Hre. done. }
    exists n.
    rewrite nodeAt_insertFrames_off by done. split_and!; [done..|].
    intros j Hj. destruct (decide (j < length threads)%nat) as [Hjlt|Hjge].
    + rewrite threadWalk_snoc_lt in Hj by done. by apply Hexcl.
    + destruct (decide (j = length threads)) as [->|Hne].
      * by rewrite threadWalk_snoc_eq in Hj.
      * destruct (Hout j); [rewrite length_app; simpl; lia|done].
  - rewrite buildGraph_snoc, insertThread_eq.
    set (p := take (S d) (threadWalk (threads ++ [thread]) splitNodes (length threads))) in *.
    rewrite threadWalk_snoc_eq in Hp.
    assert (ThreadData.frames thread !! (length p - 1)%nat = Some frame) as Hfp.
    { by rewrite Hlen, Nat.sub_1_r. }
    assert (nodeAt (buildGraph threads splitNodes) p = None) as Hnone.
    { destruct (nodeAt _ p) as [n|] eqn:Hn; [|done].
      destruct (walk_reuse _ _ _ _ _ _ _ Hnil Hp Hfp Hn) as [_ Hns]. congruence. }
    rewrite (nodeAt_insertFrames_on _ _ _ _ _ frame), Hnone by done.
    eexists. split; [done|]. cbn [default withChildren GraphNode.id addThread newNode
      GraphNode.frame GraphNode.threadIds GraphNode.threadNames].
    split_and!; [by apply nodeIdFor_split|by destruct frame|done|done|].
    intros j Hj. destruct (decide (j < length threads)%nat) as [Hjlt|Hjge].
    + rewrite threadWalk_snoc_lt in Hj by done.
      destruct (threadWalk_nodeAt splitNodes threads j p Hnil Hj). congruence.
    + destruct (decide (j = length threads)) as [->|Hne]; [done|].
      destruct (Hout j); [rewrite length_app; simpl; lia|done].
Qed.
End split.

(** ** Sibling lists *)

Section siblings.
Context (splitNodes : list string).
Implicit Types (threads : list ThreadData.t) (thread : ThreadData.t).
Implicit Types (n : GraphNode.t) (p : list nat) (level : list GraphNode.t).

(** Every sibling list after the frames of a thread have been placed is a
    sibling list from before, or an empty one, with some of these frames
    placed in it. *)
Lemma levelAt_insertFrames_inv thread frames level p lv :
  levelAt (insertFrames splitNodes thread frames level) p = Some lv →
  ∃ frames' lv0,
    (levelAt level p = Some lv0 ∨ lv0 = []) ∧
    lv = insertFrames splitNodes thread frames' lv0.
Proof.
  destruct p as [|i p].
  { intros [= <-]. exists frames, level. split; [by left|done]. }
  assert (i :: p ≠ []) as Hnil by done.
  rewrite !levelAt_nodeAt.
  destruct (nodeAt (insertFrames _ _ _ _) _) as [n'|] eqn:Hn'; [|done].
  intros [= <-].
  destruct (decide (i :: p `prefix_of` walk splitNodes thread frames level)) as [Hp|Hp].
  - destruct (walk_lookup_frame _ _ _ _ _ Hnil Hp) as [frame Hf].
    rewrite (nodeAt_insertFrames_on _ _ _ _ _ frame) in Hn' by done.
    destruct (nodeAt level (i :: p)) as [n|] eqn:Hn;
      injection Hn' as <-; eexists _, _; (split; [|done]); [by left|by right].
  - rewrite nodeAt_insertFrames_off in Hn' by done. rewrite Hn'.
    exists [], (GraphNode.children n'). split; [by left|done].
Qed.

(** A property of sibling lists that holds for the empty list and is kept
    when frames are placed in a list holds for every sibling list of the
    forest. *)
Lemma buildGraph_level_ind (Q : list GraphNode.t → Prop) :
  Q [] →
  (∀ thread frames level, Q level → Q (insertFrames splitNodes thread frames level)) →
  ∀ threads p lv, levelAt (buildGraph threads splitNodes) p = Some lv → Q lv.
Proof.
  intros Hnil Hstep threads.
  induction threads as [|thread threads IH] using rev_ind; intros p lv Hlv.
  { destruct p; [by injection Hlv as <-|done]. }
  rewrite buildGraph_snoc, insertThread_eq in Hlv.
  apply levelAt_insertFrames_inv in Hlv as (frames' & lv0 & [Hlv0| ->] & ->).
  - apply Hstep. by eapply IH.
  - by apply Hstep.
Qed.

Lemma distinctSiblings_keys level level' :
  (∀ k n', level' !! k = Some n' →
     ∃ n, level !! k = Some n ∧ GraphNode.id n' = GraphNode.id n ∧
          StackFrame.raw (GraphNode.frame n') = StackFrame.raw (GraphNode.frame n)) →
  distinctSiblings level → distinctSiblings level'.
Proof.
  intros Hkeys Hd i j ni' nj' Hi Hj Hne Hsi Hsj.
  destruct (Hkeys _ _ Hi) as (ni & Hi0 & Hidi & Hrawi).
  destruct (Hkeys _ _ Hj) as (nj & Hj0 & Hidj & Hrawj).
  unfold nonSplit in *. rewrite Hidi in Hsi. rewrite Hidj in Hsj.
  rewrite Hrawj, (isSameFrame_raw _ _ _ Hrawi). by eapply Hd.
Qed.

Lemma distinctSiblings_insertFrames thread frames level :
  distinctSiblings level →
  distinctSiblings (insertFrames splitNodes thread frames level).
Proof.
  intros Hd. destruct frames as [|frame rest]; [done|].
  cbn [insertFrames]. destruct (findNode _ _ _) as [[j node]|] eqn:Hfind.
  - apply findNode_Some in Hfind as (Hj & _).
    eapply distinctSiblings_keys; [|done]. intros k n' Hk.
    apply list_lookup_insert_Some in Hk as [(-> & <- & _)|[_ Hk]].
    + by exists node.
    + by exists n'.
  - intros i j ni nj Hi Hj Hne Hsi Hsj.
    apply findNode_None in Hfind as [Hsplit|[Hsplit Hnone]].
    { apply lookup_snoc_Some in Hi as [[_ Hi]|[-> <-]];
        apply lookup_snoc_Some in Hj as [[Hjlt Hj]|[-> <-]].
      - by eapply Hd.
      - unfold nonSplit in Hsj. cbn [withChildren addThread newNode GraphNode.id] in Hsj.
        by rewrite nodeIdFor_split_marker in Hsj.
      - unfold nonSplit in Hsi. cbn [withChildren addThread newNode GraphNode.id] in Hsi.
        by rewrite nodeIdFor_split_marker in Hsi.
      - done. }
    apply lookup_snoc_Some in Hi as [[_ Hi]|[-> <-]];
      apply lookup_snoc_Some in Hj as [[Hjlt Hj]|[-> <-]].
    + by eapply Hd.
    + cbn [withChildren GraphNode.frame]. rewrite addThread_raw, newNode_raw.
      specialize (Hnone _ _ Hi). unfold reusable in Hnone.
      unfold nonSplit in Hsi. rewrite Hsi, andb_true_r in Hnone.
      by apply not_true_is_false.
    + rewrite isSameFrame_sym.
      cbn [withChildren GraphNode.frame]. rewrite addThread_raw, newNode_raw.
      specialize (Hnone _ _ Hj). unfold reusable in Hnone.
      unfold nonSplit in Hsj. rewrite Hsj, andb_true_r in Hnone.
      by apply not_true_is_false.
    + done.
Qed.
End siblings.

(** ** Threads without frames, and the split set as a set *)

Lemma insertThread_no_frames splitNodes rootNodes thread :
  ThreadData.frames thread = [] → insertThread splitNodes rootNodes thread = rootNodes.
Proof. rewrite insertThread_eq. by intros ->. Qed.

Lemma foldl_insertThread_filter splitNodes threads rootNodes :
  foldl (insertThread splitNodes) rootNodes threads =
  foldl (insertThread splitNodes) rootNodes
    (filter (λ thread, ThreadData.frames thread ≠ []) threads).
Proof.
  revert rootNodes. induction threads as [|thread threads IH]; intros rootNodes; [done|].
  rewrite filter_cons. case_decide as Hfr; simpl.
  - apply IH.
  - rewrite insertThread_no_frames by done. apply IH.
Qed.

Lemma shouldSplit_ext splitNodes1 splitNodes2 frame :
  (∀ x, x ∈ splitNodes1 ↔ x ∈ splitNodes2) →
  shouldSplit splitNodes1 frame = shouldSplit splitNodes2 frame.
Proof. intros H. apply bool_decide_ext, H. Qed.

Lemma insertFrames_ext splitNodes1 splitNodes2 thread frames level :
  (∀ x, x ∈ splitNodes1 ↔ x ∈ splitNodes2) →
  insertFrames splitNodes1 thread frames level =
  insertFrames splitNodes2 thread frames level.
Proof.
  intros H. revert level. induction frames as [|frame rest IH]; intros level; [done|].
  cbn [insertFrames]. unfold findNode, nodeIdFor.
  rewrite (shouldSplit_ext _ _ _ H).
  destruct (shouldSplit splitNodes2 frame); [by rewrite IH|].
  destruct (list_find _ level) as [[i node]|]; by rewrite IH.
Qed.

(** C7: without threads, or with threads that all have no frames, the forest
    is empty; and a thread without frames can be dropped from the input
    without changing the forest. *)
Theorem buildGraph_empty_threads (threadsData : list ThreadData.t) (splitNodes : list string) :
  buildGraph [] splitNodes = [] ∧
  (Forall (λ thread, ThreadData.frames thread = []) threadsData →
   buildGraph threadsData splitNodes = []) ∧
  buildGraph threadsData splitNodes =
    buildGraph (filter (λ thread, ThreadData.frames thread ≠ []) threadsData) splitNodes.
Proof.
  split_and!; [done| |apply foldl_insertThread_filter].
  intros Hall. unfold buildGraph. rewrite foldl_insertThread_filter.
  replace (filter _ threadsData) with (@nil ThreadData.t); [done|].
  symmetry. induction Hall as [|thread threads Hfr _ IH]; [done|].
  rewrite filter_cons. case_decide; [done|apply IH].
Qed.

Lemma buildGraph_empty_threads_witness :
  buildGraph [Samples.idle; Samples.idle] Samples.splitFoo = [].
Proof.
  apply (proj1 (proj2 (buildGraph_empty_threads [Samples.idle; Samples.idle]
                         Samples.splitFoo))).
  repeat constructor.
Defined.

(** C8: the forest is a function of the snapshot and of the split ids as a
    set: two builds from the same threads and from split lists with the same
    elements give the same forest, node for node. *)
Theorem buildGraph_deterministic (threadsData : list ThreadData.t)
    (splitNodes1 splitNodes2 : list string) :
  (∀ x, x ∈ splitNodes1 ↔ x ∈ splitNodes2) →
  buildGraph threadsData splitNodes1 = buildGraph threadsData splitNodes2.
Proof.
  intros H. unfold buildGraph. generalize (@nil GraphNode.t).
  induction threadsData as [|thread threads IH]; intros rootNodes; [done|].
  simpl. by rewrite !insertThread_eq, (insertFrames_ext _ _ _ _ _ H), IH.
Qed.

Lemma buildGraph_deterministic_witness :
  buildGraph [Tests.t1; Tests.t2] ["main.cpp:10:1:foo"; "main.cpp:20:1:bar"] =
  buildGraph [Tests.t1; Tests.t2]
    ["main.cpp:20:1:bar"; "main.cpp:10:1:foo"; "main.cpp:20:1:bar"].
Proof.
  apply buildGraph_deterministic.
  intros x. rewrite !elem_of_cons, !elem_of_nil. tauto.
Defined.

(** ** The properties of the forest *)

(** C3: a frame whose canonical id is in the split set never reuses a
    sibling: it is given a new node at the end of the sibling list, with the
    canonical id, the split marker and the id of the thread as its id, and
    with that thread alone as its members. In the finished forest that node
    still has that id and that one thread, and no other thread of the input
    passes through it. In particular two threads with the same frame
    sequence, split at depth [d], have two different nodes at depth [d], one
    for each thread, with the same frame. *)
Theorem split_creates_exclusive_node (splitNodes : list string) :
  (∀ thread frame level,
     canonicalId frame ∈ splitNodes →
     ∃ node,
       placeFrame splitNodes thread frame level = (length level, level ++ [node]) ∧
       GraphNode.id node =
         canonicalId frame +:+ splitMarker +:+ pretty (ThreadData.id thread) ∧
       StackFrame.raw (GraphNode.frame node) = frame ∧
       GraphNode.children node = [] ∧
       GraphNode.threadIds node = [ThreadData.id thread] ∧
       GraphNode.threadNames node = [ThreadData.name thread]) ∧
  (∀ threads i thread d frame,
     threads !! i = Some thread → ThreadData.frames thread !! d = Some frame →
     canonicalId frame ∈ splitNodes →
     ∃ n, nodeAt (buildGraph threads splitNodes)
            (take (S d) (threadWalk threads splitNodes i)) = Some n ∧
       GraphNode.id n =
         canonicalId frame +:+ splitMarker +:+ pretty (ThreadData.id thread) ∧
       GraphNode.threadIds n = [ThreadData.id thread] ∧
       ∀ j, take (S d) (threadWalk threads splitNodes i)
              `prefix_of` threadWalk threads splitNodes j → j = i) ∧
  (∀ t1 t2 d frame,
     Forall2 sameCallSite (ThreadData.frames t1) (ThreadData.frames t2) →
     ThreadData.frames t1 !! d = Some frame →
     canonicalId frame ∈ splitNodes →
     ∃ p1 p2 n1 n2,
       p1 ≠ p2 ∧ length p1 = S d ∧ length p2 = S d ∧
       nodeAt (buildGraph [t1; t2] splitNodes) p1 = Some n1 ∧
       nodeAt (buildGraph [t1; t2] splitNodes) p2 = Some n2 ∧
       GraphNode.threadIds n1 = [ThreadData.id t1] ∧
       GraphNode.threadIds n2 = [ThreadData.id t2] ∧
       GraphNode.id n1 =
         canonicalId frame +:+ splitMarker +:+ pretty (ThreadData.id t1) ∧
       GraphNode.id n2 =
         canonicalId frame +:+ splitMarker +:+ pretty (ThreadData.id t2) ∧
       isSameFrame (GraphNode.frame n1) (StackFrame.raw (GraphNode.frame n2)) = true).
Proof.
  split_and!.
  - intros thread frame level Hin.
    assert (shouldSplit splitNodes frame = true) as Hsplit by by apply bool_decide_eq_true.
    eexists. split; [by apply placeFrame_split|]. split_and!; [done| |done..].
    by destruct frame.
  - intros threads i thread d frame Hi Hf Hin.
    assert (shouldSplit splitNodes frame = true) as Hsplit by by apply bool_decide_eq_true.
    destruct (split_node splitNodes threads i thread d frame Hi Hf Hsplit)
      as (n & Hn & Hid & _ & Hids & _ & Hexcl).
    by exists n.
  - intros t1 t2 d frame Hsame Hf Hin.
    destruct (Forall2_lookup_l _ _ _ _ _ Hsame Hf) as (frame2 & Hf2 & Hsite).
    assert (canonicalId frame2 = canonicalId frame) as Hcanon.
    { destruct Hsite as (Hn & Hl & Hc & Hp). unfold canonicalId.
      by rewrite Hn, Hl, Hc, Hp. }
    assert (shouldSplit splitNodes frame = true) as Hsplit by by apply bool_decide_eq_true.
    assert (shouldSplit splitNodes frame2 = true) as Hsplit2.
    { apply bool_decide_eq_true. by rewrite Hcanon. }
    destruct (split_node splitNodes [t1; t2] 0 t1 d frame eq_refl Hf Hsplit)
      as (n1 & Hn1 & Hid1 & Hraw1 & Hids1 & _ & Hexcl1).
    destruct (split_node splitNodes [t1; t2] 1 t2 d frame2 eq_refl Hf2 Hsplit2)
      as (n2 & Hn2 & Hid2 & Hraw2 & Hids2 & _ & _).
    destruct (threadWalk_take splitNodes [t1; t2] 0 t1 d eq_refl (lookup_lt_Some _ _ _ Hf))
      as (_ & Hlen1 & _).
    destruct (threadWalk_take splitNodes [t1; t2] 1 t2 d eq_refl (lookup_lt_Some _ _ _ Hf2))
      as (_ & Hlen2 & Hpre2).
    eexists _, _, n1, n2. split_and!; [|exact Hlen1|exact Hlen2|done..| |].
    + intros Heq. rewrite <-Heq in Hpre2. by apply Hexcl1 in Hpre2.
    + by rewrite Hid2, Hcanon.
    + rewrite Hraw2. apply isSameFrame_true.
      rewrite <-Hraw1 in Hsite. exact Hsite.
Qed.

Lemma split_creates_exclusive_node_witness :
  ∃ p1 p2 n1 n2,
    p1 ≠ p2 ∧ length p1 = 2%nat ∧ length p2 = 2%nat ∧
    nodeAt (buildGraph [Tests.t1; Tests.t2] Samples.splitFoo) p1 = Some n1 ∧
    nodeAt (buildGraph [Tests.t1; Tests.t2] Samples.splitFoo) p2 = Some n2 ∧
    GraphNode.threadIds n1 = [1] ∧
    GraphNode.threadIds n2 = [2] ∧
    GraphNode.id n1 = "main.cpp:10:1:foo::split::1" ∧
    GraphNode.id n2 = "main.cpp:10:1:foo::split::2" ∧
    isSameFrame (GraphNode.frame n1) (StackFrame.raw (GraphNode.frame n2)) = true.
Proof.
  apply (proj2 (proj2 (split_creates_exclusive_node Samples.splitFoo))
           Tests.t1 Tests.t2 1%nat (RawFrame.mk (Some 11) "foo" (Tests.src "main.cpp") 10 1)).
  - repeat constructor.
  - reflexivity.
  - apply list_elem_of_here.
Defined.

(** C4, as the code has it: in every sibling list of the forest, the root
    list included, no two nodes without the split marker in their id have
    the same frame in the sense of [isSameFrame]. *)
Theorem siblings_distinct (threadsData : list ThreadData.t) (splitNodes : list string)
    (p : list nat) (level : list GraphNode.t) :
  levelAt (buildGraph threadsData splitNodes) p = Some level →
  distinctSiblings level.
Proof.
  revert threadsData p level. apply buildGraph_level_ind.
  - by intros i j ni nj Hi.
  - intros thread frames level. apply distinctSiblings_insertFrames.
Qed.

Lemma siblings_distinct_witness :
  ∃ level,
    levelAt (buildGraph [Tests.d1; Tests.d2] []) [0%nat] = Some level ∧
    length level = 2%nat ∧
    distinctSiblings level.
Proof.
  eexists. split; [reflexivity|]. split; [reflexivity|].
  apply (siblings_distinct [Tests.d1; Tests.d2] [] [0%nat]). reflexivity.
Defined.

Example roots_with_one_id :
  GraphNode.id <$> buildGraph [Samples.absentThread; Samples.undefinedThread] [] =
    ["undefined:1:1:main"; "undefined:1:1:main"] ∧
  nonSplit <$> buildGraph [Samples.absentThread; Samples.undefinedThread] [] =
    [true; true].
Proof. by split. Qed.

(** C4 as written fails for the identity of the nodes: a frame without a
    source and the same frame with the path [undefined] give two root nodes
    with one id, none of them a split node. *)
Lemma sibling_ids_not_distinct :
  ¬ (∀ p level,
       levelAt (buildGraph [Samples.absentThread; Samples.undefinedThread] []) p
         = Some level →
       distinctSiblingIds level).
Proof.
  intros H.
  eapply (H [] _ eq_refl 0%nat 1%nat); [reflexivity|reflexivity|done|reflexivity..].
Qed.

(** X18: the thread ids on a node are the ids of exactly the threads of the
    input whose path through the forest (the positions of the cursor of the
    builder) reaches the node; they are recorded once each, in the order of
    the input, each with the name of the first thread that has the id. The
    path of a thread follows its frame sequence: the node at depth [d] of
    the path has the frame at depth [d] of the thread, in the sense of
    [isSameFrame]. *)
Theorem threadIds_of_threads_on_path (threadsData : list ThreadData.t)
    (splitNodes : list string) :
  (∀ i thread d frame,
     threadsData !! i = Some thread → ThreadData.frames thread !! d = Some frame →
     ∃ n, nodeAt (buildGraph threadsData splitNodes)
            (take (S d) (threadWalk threadsData splitNodes i)) = Some n ∧
          isSameFrame (GraphNode.frame n) frame = true) ∧
  (∀ p n,
     nodeAt (buildGraph threadsData splitNodes) p = Some n →
     (∀ t, t ∈ GraphNode.threadIds n ↔
        ∃ i thread, threadsData !! i = Some thread ∧ ThreadData.id thread = t ∧
                    p `prefix_of` threadWalk threadsData splitNodes i) ∧
     NoDup (GraphNode.threadIds n) ∧
     length (GraphNode.threadNames n) = length (GraphNode.threadIds n) ∧
     (GraphNode.threadIds n, GraphNode.threadNames n) =
       foldl recordThread ([], []) (passing threadsData splitNodes p)).
Proof.
  split.
  - intros i thread d frame. apply threadWalk_frames.
  - intros p n Hn. split; [by apply threadIds_passing|].
    destruct (threadIds_NoDup splitNodes _ _ _ Hn) as [Hdup Hlen].
    split_and!; [done|done|by apply members_passing].
Qed.

Lemma threadIds_of_threads_on_path_witness :
  ∃ n, nodeAt (buildGraph [Tests.d1; Tests.d2] []) [0%nat; 1%nat] = Some n ∧
       (2 ∈ GraphNode.threadIds n ↔
        ∃ i thread, [Tests.d1; Tests.d2] !! i = Some thread ∧
                    ThreadData.id thread = 2 ∧
                    [0%nat; 1%nat] `prefix_of` threadWalk [Tests.d1; Tests.d2] [] i).
Proof.
  eexists. split; [reflexivity|].
  apply (proj2 (threadIds_of_threads_on_path [Tests.d1; Tests.d2] [])
           [0%nat; 1%nat] _ eq_refl).
Defined.

(** C5 at two threads with the one frame [ns::split::run] and an empty split
    set: the frame sequence of the second thread passes through the chain
    of the first root (the root has the frame of the thread and the id that
    the frame has for the thread, and the frame is not split), but the id of
    the thread is not on that root, which has the first thread only. *)
Theorem threadIds_miss_thread_with_marker_in_name :
  ∃ n,
    nodeAt (buildGraph [Samples.nsThread1; Samples.nsThread2] []) [0%nat] = Some n ∧
    shouldSplit [] Samples.nsFrame = false ∧
    followsChain [] Samples.nsThread2 (ThreadData.frames Samples.nsThread2)
      (buildGraph [Samples.nsThread1; Samples.nsThread2] []) [0%nat] = true ∧
    GraphNode.threadIds n = [1] ∧
    ThreadData.id Samples.nsThread2 ∉ GraphNode.threadIds n.
Proof.
  eexists. split; [reflexivity|]. split_and!; [done..|].
  simpl. by intros [=]%list_elem_of_singleton.
Qed.

(** C9: on every node of the forest the thread ids kept on the frame of the
    node are the thread ids of the node; a visit keeps the two lists
    equal. *)
Theorem frame_threadIds_eq_node_threadIds (splitNodes : list string) :
  (∀ thread n,
     StackFrame.threadIds (GraphNode.frame n) = GraphNode.threadIds n →
     StackFrame.threadIds (GraphNode.frame (addThread thread n)) =
     GraphNode.threadIds (addThread thread n)) ∧
  (∀ threadsData p n,
     nodeAt (buildGraph threadsData splitNodes) p = Some n →
     StackFrame.threadIds (GraphNode.frame n) = GraphNode.threadIds n).
Proof.
  assert (∀ thread n,
     StackFrame.threadIds (GraphNode.frame n) = GraphNode.threadIds n →
     StackFrame.threadIds (GraphNode.frame (addThread thread n)) =
     GraphNode.threadIds (addThread thread n)) as Hstep.
  { intros thread n Hn.
    cbn [addThread GraphNode.frame GraphNode.threadIds StackFrame.threadIds].
    by rewrite Hn. }
  split; [done|]. apply buildGraph_node_ind.
  - by intros n cs Hn.
  - done.
  - intros thread frame n Hn _ _. by apply Hstep.
Qed.

Lemma frame_threadIds_eq_node_threadIds_witness :
  ∃ n, nodeAt (buildGraph [Tests.t1; Tests.t2] []) [0%nat; 0%nat] = Some n ∧
       StackFrame.threadIds (GraphNode.frame n) = GraphNode.threadIds n.
Proof.
  eexists. split; [reflexivity|].
  apply (proj2 (frame_threadIds_eq_node_threadIds []) [Tests.t1; Tests.t2]
           [0%nat; 0%nat] _ eq_refl).
Defined.

(** C10: placing the frames of a thread leaves every node at its position
    with its id and with the id, name, line, column and source of its frame;
    the member lists only grow at the end. So every node of the forest has
    the frame, and the id, given by the first thread of the input whose path
    reaches it. *)
Theorem reuse_changes_membership_only (splitNodes : list string) :
  (∀ thread rootNodes p n,
     nodeAt rootNodes p = Some n →
     ∃ n', nodeAt (insertThread splitNodes rootNodes thread) p = Some n' ∧
       GraphNode.id n' = GraphNode.id n ∧
       StackFrame.raw (GraphNode.frame n') = StackFrame.raw (GraphNode.frame n) ∧
       GraphNode.threadIds n `prefix_of` GraphNode.threadIds n' ∧
       GraphNode.threadNames n `prefix_of` GraphNode.threadNames n' ∧
       StackFrame.threadIds (GraphNode.frame n) `prefix_of`
         StackFrame.threadIds (GraphNode.frame n')) ∧
  (∀ threadsData p n,
     nodeAt (buildGraph threadsData splitNodes) p = Some n →
     ∃ i thread frame,
       threadsData !! i = Some thread ∧
       p `prefix_of` threadWalk threadsData splitNodes i ∧
       (∀ j, (j < i)%nat → ¬ p `prefix_of` threadWalk threadsData splitNodes j) ∧
       ThreadData.frames thread !! (length p - 1)%nat = Some frame ∧
       StackFrame.raw (GraphNode.frame n) = frame ∧
       GraphNode.id n = nodeIdFor splitNodes thread frame).
Proof.
  split.
  - intros thread rootNodes p n. rewrite insertThread_eq. apply insertFrames_keeps.
  - apply node_creator.
Qed.

Lemma reuse_changes_membership_only_witness :
  ∃ n', nodeAt (insertThread [] (buildGraph [Tests.t1] []) Tests.t2) [0%nat] = Some n' ∧
    GraphNode.id n' = "main.cpp:1:1:main" ∧
    StackFrame.id (GraphNode.frame n') = Some 10 ∧
    GraphNode.threadIds n' = [1; 2].
Proof.
  destruct (proj1 (reuse_changes_membership_only []) Tests.t2
              (buildGraph [Tests.t1] []) [0%nat] _ eq_refl)
    as (n' & Hn' & _).
  exists n'. split; [exact Hn'|].
  vm_compute in Hn'. injection Hn' as <-. by split_and!.
Defined.

(** C6 at two threads with the one frame [ns::split::run] and an empty split
    set: the frame sequences are the same and no frame is split, but the
    forest has two roots with one id, one for each thread. *)
Theorem full_merge_fails_for_marker_in_name :
  Forall2 sameCallSite (ThreadData.frames Samples.nsThread1)
    (ThreadData.frames Samples.nsThread2) ∧
  shouldSplit [] Samples.nsFrame = false ∧
  GraphNode.id <$> buildGraph [Samples.nsThread1; Samples.nsThread2] [] =
    ["main.cpp:5:1:ns::split::run"; "main.cpp:5:1:ns::split::run"] ∧
  GraphNode.threadIds <$> buildGraph [Samples.nsThread1; Samples.nsThread2] [] =
    [[1]; [2]].
Proof. split_and!; [by repeat constructor|done..]. Qed.

(** ** Threads with the same frame sequence *)

Section chain.
Context (splitNodes : list string).
Implicit Types (threads : list ThreadData.t) (thread : ThreadData.t).
Implicit Types (frames : list RawFrame.t) (m : list Z * list string).

Lemma sameCallSite_canonicalId (f g : RawFrame.t) :
  sameCallSite f g → canonicalId f = canonicalId g.
Proof. intros (Hn & Hl & Hc & Hp). unfold canonicalId. by rewrite Hn, Hl, Hc, Hp. Qed.

Lemma insertFrames_first thread frames :
  Forall (mergeable splitNodes) frames →
  insertFrames splitNodes thread frames [] =
  chain frames ([ThreadData.id thread], [ThreadData.name thread]).
Proof.
  induction 1 as [|frame rest [Hsplit _] _ IH]; [done|].
  cbn [insertFrames chain]. unfold findNode, nodeIdFor. rewrite Hsplit.
  cbn [list_find addThread newNode withChildren GraphNode.children app].
  by rewrite IH.
Qed.

Lemma insertFrames_chain thread frames' frames m :
  Forall2 sameCallSite frames' frames →
  Forall (mergeable splitNodes) frames →
  insertFrames splitNodes thread frames' (chain frames m) =
  chain frames (recordThread m thread).
Proof.
  intros Hsame. revert m.
  induction Hsame as [|g f grest rest Hsite _ IH]; intros m Hall; [done|].
  apply Forall_cons in Hall as [[Hsplit Hmarker] Hall].
  cbn [insertFrames chain].
  set (node := GraphNode.mk (canonicalId f) _ (chain rest m) m.1 m.2).
  assert (findNode splitNodes g [node] = Some (0%nat, node)) as ->.
  { unfold findNode, shouldSplit.
    rewrite (sameCallSite_canonicalId _ _ Hsite). fold (shouldSplit splitNodes f).
    rewrite Hsplit. apply list_find_Some. split_and!; [done| |intros; lia].
    unfold reusable. apply andb_true_iff. split.
    - apply isSameFrame_true. destruct Hsite as (? & ? & ? & ?). by split_and!.
    - unfold node. cbn [GraphNode.id]. by rewrite Hmarker. }
  cbn [addThread withChildren GraphNode.children node list_insert insert
       GraphNode.id GraphNode.frame GraphNode.threadIds GraphNode.threadNames
       StackFrame.id StackFrame.name StackFrame.source StackFrame.line
       StackFrame.column StackFrame.threadIds].
  unfold node. cbn [GraphNode.children]. rewrite (IH m Hall).
  unfold recordThread, addThread, withChildren. simpl. by case_bool_decide.
Qed.

Lemma foldl_insertThread_chain threads frames m :
  Forall (λ thread, Forall2 sameCallSite (ThreadData.frames thread) frames) threads →
  Forall (mergeable splitNodes) frames →
  foldl (insertThread splitNodes) (chain frames m) threads =
  chain frames (foldl recordThread m threads).
Proof.
  intros Hthreads Hall. revert m.
  induction Hthreads as [|thread threads Hsame _ IH]; intros m; [done|].
  cbn [foldl]. by rewrite insertThread_eq, insertFrames_chain, IH.
Qed.

(** Threads that all have the frame sequence of the first one, none of
    its frames split and none with the split marker in its canonical id,
    give a single chain with the frames of the first thread, every node
    with all the threads as members. *)
Lemma full_merge thread threads :
  Forall (λ t, Forall2 sameCallSite (ThreadData.frames t) (ThreadData.frames thread))
    threads →
  Forall (mergeable splitNodes) (ThreadData.frames thread) →
  buildGraph (thread :: threads) splitNodes =
  chain (ThreadData.frames thread)
    (foldl recordThread ([], []) (thread :: threads)).
Proof.
  intros Hthreads Hall. unfold buildGraph. cbn [foldl].
  rewrite insertThread_eq, insertFrames_first by done.
  by apply foldl_insertThread_chain.
Qed.
End chain.

(** * The stack source and the panel *)

Section source.
Context (session : Session.t) (splitNodes : list string).
Implicit Types (threads : list DapThread.t) (thread : DapThread.t).

Lemma fetchThreadData_Resolved thread :
  rejectedNullish session thread = false →
  fetchThreadData session thread = Resolved (threadData session thread).
Proof.
  unfold fetchThreadData, rejectedNullish, threadData.
  by destruct (Session.stackTrace session _) as [[]|[|]].
Qed.

Lemma fetchThreadData_nullish thread :
  rejectedNullish session thread = true →
  fetchThreadData session thread = Rejected MessageOfNullish.
Proof.
  unfold fetchThreadData, rejectedNullish.
  by destruct (Session.stackTrace session _) as [[]|[|]].
Qed.

Lemma fetchThreadData_Rejected thread e :
  fetchThreadData session thread = Rejected e → e = MessageOfNullish.
Proof.
  unfold fetchThreadData.
  destruct (Session.stackTrace session _) as [[]|[|]]; simpl; congruence.
Qed.

Lemma promiseAll_fetchThreadData threads :
  Forall (λ thread, rejectedNullish session thread = false) threads →
  promiseAll (fetchThreadData session <$> threads) =
  Resolved (threadData session <$> threads).
Proof.
  induction 1 as [|thread threads Hno _ IH]; [done|].
  rewrite !fmap_cons. cbn [promiseAll].
  by rewrite (fetchThreadData_Resolved _ Hno), IH.
Qed.

Lemma promiseAll_fetchThreadData_nullish threads :
  Exists (λ thread, rejectedNullish session thread = true) threads →
  promiseAll (fetchThreadData session <$> threads) = Rejected MessageOfNullish.
Proof.
  induction 1 as [thread threads Hyes|thread threads _ IH]; rewrite fmap_cons; cbn [promiseAll].
  - by rewrite (fetchThreadData_nullish _ Hyes).
  - rewrite IH. destruct (fetchThreadData session thread) as [e|td] eqn:Hf; [|done].
    by apply fetchThreadData_Rejected in Hf as ->.
Qed.

Lemma threadData_frames_nil thread :
  ThreadData.frames (threadData session thread) = [] ↔
  hasFrames session thread = false.
Proof.
  unfold threadData, hasFrames.
  destruct (Session.stackTrace session _) as [|[|[|f fs]]]; simpl; try done.
  split; [|done]. intros H%(f_equal length).
  rewrite length_reverse in H. done.
Qed.



Lemma getStackGraph_Threads threads :
  Session.threads session = Resolved (Threads threads) →
  Forall (λ thread, rejectedNullish session thread = false) threads →
  getStackGraph session splitNodes =
  Resolved (buildGraph (threadData session <$> threads) splitNodes).
Proof.
  intros Hts Hall. unfold getStackGraph. rewrite Hts. case_bool_decide as Hlen.
  - by apply nil_length_inv in Hlen as ->.
  - by rewrite (promiseAll_fetchThreadData _ Hall).
Qed.

Lemma getStackGraph_nullish threads :
  Session.threads session = Resolved (Threads threads) →
  Exists (λ thread, rejectedNullish session thread = true) threads →
  getStackGraph session splitNodes = Rejected MessageOfNullish.
Proof.
  intros Hts Hex. unfold getStackGraph. rewrite Hts. case_bool_decide as Hlen.
  - apply nil_length_inv in Hlen as ->. by apply Exists_nil in Hex.
  - by rewrite (promiseAll_fetchThreadData_nullish _ Hex).
Qed.

Lemma getStackGraph_Resolved threads forest :
  Session.threads session = Resolved (Threads threads) →
  getStackGraph session splitNodes = Resolved forest →
  Forall (λ thread, rejectedNullish session thread = false) threads ∧
  forest = buildGraph (threadData session <$> threads) splitNodes.
Proof.
  intros Hts Hres.
  destruct (decide (Forall (λ thread, rejectedNullish session thread = false) threads))
    as [Hall|Hex].
  - split; [done|]. rewrite (getStackGraph_Threads _ Hts Hall) in Hres.
    by injection Hres.
  - apply not_Forall_Exists in Hex; [|apply _].
    rewrite (getStackGraph_nullish threads Hts) in Hres; [done|].
    eapply Exists_impl; [exact Hex|]. intros thread. by apply not_false_is_true.
Qed.


Lemma threadData_id thread :
  ThreadData.id (threadData session thread) = DapThread.id thread.
Proof. done. Qed.
End source.



(** X2: the graph is built with the bottom of each stack at the root: when
    [getStackGraph] gives a forest, the frame at index [k] of a fetched
    trace (the top of the stack at index 0) is the frame, in the sense of
    [isSameFrame], of the node at depth [length trace - 1 - k] of the path
    of its thread. *)
Theorem getStackGraph_roots_are_stack_bottoms (session : Session.t)
    (splitNodes : list string) (threads : list DapThread.t)
    (forest : list GraphNode.t) (i : nat)
    (thread : DapThread.t) (stackFrames : list RawFrame.t) (k : nat)
    (frame : RawFrame.t) :
  Session.threads session = Resolved (Threads threads) →
  getStackGraph session splitNodes = Resolved forest →
  threads !! i = Some thread →
  Session.stackTrace session (DapThread.id thread) = Resolved (StackFrames stackFrames) →
  stackFrames !! k = Some frame →
  ∃ n,
    nodeAt forest
      (take (length stackFrames - k)
         (threadWalk (threadData session <$> threads) splitNodes i)) = Some n ∧
    isSameFrame (GraphNode.frame n) frame = true.
Proof.
  intros Hts Hres Hi Hst Hk.
  apply (getStackGraph_Resolved _ _ _ _ Hts) in Hres as [_ ->].
  pose proof (lookup_lt_Some _ _ _ Hk) as Hlt.
  destruct (threadWalk_frames splitNodes (threadData session <$> threads) i
              (threadData session thread) (length stackFrames - S k) frame)
    as (n & Hn & Hsame).
  - by rewrite list_lookup_fmap, Hi.
  - unfold threadData. rewrite Hst. simpl.
    rewrite reverse_lookup by lia. rewrite <-Hk. f_equal. lia.
  - exists n. split; [|done].
    rewrite <-Hn. f_equal. f_equal. lia.
Qed.

Lemma getStackGraph_roots_are_stack_bottoms_witness :
  ∃ n,
    nodeAt (buildGraph (threadData Sessions.paused <$>
              [Sessions.main; Sessions.worker; Sessions.lost]) []) [0%nat] = Some n ∧
    isSameFrame (GraphNode.frame n)
      (RawFrame.mk (Some 20) "main" (Tests.src "main.cpp") 1 1) = true.
Proof.
  apply (getStackGraph_roots_are_stack_bottoms Sessions.paused []
           [Sessions.main; Sessions.worker; Sessions.lost] _ 1 Sessions.worker
           (reverse (ThreadData.frames Tests.t2)) 2
           (RawFrame.mk (Some 20) "main" (Tests.src "main.cpp") 1 1));
    reflexivity.
Defined.

(** X3: a thread id is on some node of the graph exactly when it is the id
    of a thread of the session whose stack trace was fetched and has a
    frame: a thread without frames is nowhere in the graph, and every other
    thread is somewhere. *)
Theorem getStackGraph_shows_threads_with_frames (session : Session.t)
    (splitNodes : list string) (threads : list DapThread.t)
    (forest : list GraphNode.t) (t : Z) :
  Session.threads session = Resolved (Threads threads) →
  getStackGraph session splitNodes = Resolved forest →
  (∃ p n, nodeAt forest p = Some n ∧ t ∈ GraphNode.threadIds n) ↔
  (∃ thread, thread ∈ threads ∧ DapThread.id thread = t ∧
             hasFrames session thread = true).
Proof.
  intros Hts Hres. apply (getStackGraph_Resolved _ _ _ _ Hts) in Hres as [_ ->].
  set (tds := threadData session <$> threads). split.
  - intros (p & n & Hn & Ht).
    apply (threadIds_passing splitNodes tds p n Hn) in Ht as (i & td & Hi & Hid & Hp).
    unfold tds in Hi. rewrite list_lookup_fmap in Hi.
    destruct (threads !! i) as [thread|] eqn:Hthread; [|done].
    injection Hi as <-. exists thread.
    split; [by eapply list_elem_of_lookup_2|].
    split; [by rewrite <-Hid, threadData_id|].
    apply not_false_iff_true. intros Hno%threadData_frames_nil.
    apply prefix_length in Hp.
    rewrite (threadWalk_length splitNodes tds i (threadData session thread)) in Hp.
    + rewrite Hno in Hp. destruct p; [done|simpl in Hp; lia].
    + unfold tds. by rewrite list_lookup_fmap, Hthread.
  - intros (thread & [i Hi]%list_elem_of_lookup_1 & Hid & Hhas).
    assert (tds !! i = Some (threadData session thread)) as Htd.
    { unfold tds. by rewrite list_lookup_fmap, Hi. }
    destruct (ThreadData.frames (threadData session thread)) as [|f fs] eqn:Hfr.
    { apply threadData_frames_nil in Hfr. congruence. }
    destruct (threadWalk_frames splitNodes tds i _ 0 f Htd) as (n & Hn & _).
    { by rewrite Hfr. }
    eexists _, n. split; [exact Hn|].
    apply (threadIds_passing splitNodes tds _ n Hn).
    exists i, (threadData session thread).
    split_and!; [done|by rewrite threadData_id|apply prefix_take].
Qed.

Lemma getStackGraph_shows_threads_with_frames_witness :
  ¬ ∃ p n, nodeAt (buildGraph (threadData Sessions.paused <$>
                     [Sessions.main; Sessions.worker; Sessions.lost]) []) p = Some n ∧
           3 ∈ GraphNode.threadIds n.
Proof.
  intros H.
  apply (getStackGraph_shows_threads_with_frames Sessions.paused []
           [Sessions.main; Sessions.worker; Sessions.lost] _ 3 eq_refl eq_refl) in H
    as (thread & Hin & Hid & Hhas).
  repeat (apply elem_of_cons in Hin as [->|Hin]; [by vm_compute in Hid; try discriminate|]).
  by apply elem_of_nil in Hin.
Defined.

(** X4: the panel builds the graph with an empty split set: in the graph
    that it posts to the web view the id of every node is the canonical id
    of the frame of the node, never one with a thread id appended. *)
Theorem _updateGraph_ids_are_canonical (session : Session.t)
    (data : list GraphNode.t) (p : list nat) (n : GraphNode.t) :
  _updateGraph (Some session) = Resolved (UpdateGraph data) →
  nodeAt data p = Some n →
  GraphNode.id n = canonicalId (StackFrame.raw (GraphNode.frame n)).
Proof.
  unfold _updateGraph.
  destruct (getStackGraph session []) as [e|forest] eqn:Hres.
  { by destruct (readMessage e). }
  intros [= <-]. revert Hres. unfold getStackGraph.
  destruct (Session.threads session) as [e|[json|threads]].
  { unfold rethrow. by destruct (readMessage e). }
  { done. }
  case_bool_decide.
  { intros [= <-]. by rewrite nodeAt_nil_level. }
  destruct (promiseAll _) as [e|threadsData].
  { unfold rethrow. by destruct (readMessage e). }
  intros [= <-] Hn.
  apply node_creator in Hn as (i & thread & frame & _ & _ & _ & _ & -> & ->).
  unfold nodeIdFor, shouldSplit. rewrite bool_decide_eq_false_2; [done|].
  apply not_elem_of_nil.
Qed.

Lemma _updateGraph_ids_are_canonical_witness :
  ∃ n, nodeAt (buildGraph (threadData Sessions.paused <$>
                 [Sessions.main; Sessions.worker; Sessions.lost]) []) [0%nat; 0%nat]
         = Some n ∧
       GraphNode.id n = canonicalId (StackFrame.raw (GraphNode.frame n)).
Proof.
  eexists. split; [reflexivity|].
  apply (_updateGraph_ids_are_canonical Sessions.paused _ [0%nat; 0%nat] _ eq_refl eq_refl).
Defined.

Lemma _openFile_sourcePath (source source' : option Source.t) (line column : Z) :
  sourcePath source = sourcePath source' →
  _openFile source line column = _openFile source' line column.
Proof.
  unfold _openFile, sourcePath. destruct source as [[]|], source' as [[]|]; simpl;
    intros H; by subst.
Qed.

(** X5: a click on a node opens the call site of every thread merged into
    it: for each frame of each thread, the node that holds the frame asks
    the editor for what the frame itself would ask, the same file and the
    same position, or nothing when the frame has no path. *)
Theorem clickNode_opens_frame_of_each_thread (threadsData : list ThreadData.t)
    (splitNodes : list string) (i : nat) (thread : ThreadData.t) (d : nat)
    (frame : RawFrame.t) :
  threadsData !! i = Some thread →
  ThreadData.frames thread !! d = Some frame →
  ∃ n, nodeAt (buildGraph threadsData splitNodes)
         (take (S d) (threadWalk threadsData splitNodes i)) = Some n ∧
       clickNode n =
         _openFile (RawFrame.source frame) (RawFrame.line frame) (RawFrame.column frame).
Proof.
  intros Hi Hf.
  destruct (threadWalk_frames splitNodes threadsData i thread d frame Hi Hf)
    as (n & Hn & (_ & Hl & Hc & Hp)%isSameFrame_true).
  exists n. split; [done|]. unfold clickNode. rewrite Hl, Hc.
  by apply _openFile_sourcePath.
Qed.

Lemma clickNode_opens_frame_of_each_thread_witness :
  ∃ n, nodeAt (buildGraph [Tests.t1; Tests.t2] []) [0%nat; 0%nat] = Some n ∧
       clickNode n = Reveal "main.cpp" 9 0.
Proof.
  apply (clickNode_opens_frame_of_each_thread [Tests.t1; Tests.t2] [] 1 Tests.t2 1
           (RawFrame.mk (Some 21) "foo" (Tests.src "main.cpp") 10 1) eq_refl eq_refl).
Defined.

(** * More about the forest *)

Section forest.
Context (splitNodes : list string).
Implicit Types (threads : list ThreadData.t) (thread : ThreadData.t).
Implicit Types (n : GraphNode.t) (p q : list nat).

Lemma prefix_take_eq (p w : list nat) (k : nat) :
  p `prefix_of` w → (k ≤ length p)%nat → take k w = take k p.
Proof. intros [r ->] Hk. by rewrite take_app_le. Qed.

Lemma split_node_single threads p n :
  nodeAt (buildGraph threads splitNodes) p = Some n →
  includes (GraphNode.id n) splitMarker = true →
  length (GraphNode.threadIds n) = 1%nat.
Proof.
  revert threads p n.
  apply (buildGraph_node_ind splitNodes
           (λ n, includes (GraphNode.id n) splitMarker = true →
                 length (GraphNode.threadIds n) = 1%nat)).
  - by intros n cs Hn.
  - done.
  - intros thread frame n _ [_ Hre%negb_true_iff]%andb_true_iff _.
    rewrite addThread_id. congruence.
Qed.

Lemma threadIds_count threads p n :
  nodeAt (buildGraph threads splitNodes) p = Some n →
  length (GraphNode.threadIds n) =
  length (remove_dups (ThreadData.id <$> passing threads splitNodes p)).
Proof.
  intros Hn. apply Permutation_length, NoDup_Permutation.
  - by eapply threadIds_NoDup.
  - apply NoDup_remove_dups.
  - intros t. rewrite elem_of_remove_dups, list_elem_of_fmap.
    rewrite (threadIds_passing splitNodes threads p n Hn). split.
    + intros (i & thread & Hi & Hid & Hp). exists thread. split; [done|].
      apply elem_of_passing. by exists i.
    + intros (thread & -> & (i & Hi & Hp)%elem_of_passing). by exists i, thread.
Qed.

Lemma threadIds_nonempty threads p n :
  nodeAt (buildGraph threads splitNodes) p = Some n →
  (1 ≤ length (GraphNode.threadIds n))%nat.
Proof.
  intros Hn.
  destruct (node_creator splitNodes threads p n Hn) as (i & thread & _ & Hi & Hp & _).
  assert (ThreadData.id thread ∈ GraphNode.threadIds n) as Hin.
  { apply (threadIds_passing splitNodes threads p n Hn). by exists i, thread. }
  destruct (GraphNode.threadIds n); [by apply elem_of_nil in Hin|simpl; lia].
Qed.
End forest.

(** X6: the number of thread ids on a node is the number of different ids
    among the threads whose path reaches the node, and it is at least one.
    So the badge of the web view shows that number when it is two or more,
    and a node whose id has the split marker never has a badge. *)
Theorem badge_counts_distinct_threads (threadsData : list ThreadData.t)
    (splitNodes : list string) (p : list nat) (n : GraphNode.t) :
  nodeAt (buildGraph threadsData splitNodes) p = Some n →
  let k := length (remove_dups (ThreadData.id <$> passing threadsData splitNodes p)) in
  (1 ≤ k)%nat ∧
  length (GraphNode.threadIds n) = k ∧
  badge n = (if bool_decide (1 < k)%nat then Some k else None) ∧
  (includes (GraphNode.id n) splitMarker = true → badge n = None).
Proof.
  intros Hn k.
  pose proof (threadIds_count splitNodes _ _ _ Hn) as Hk. fold k in Hk.
  pose proof (threadIds_nonempty splitNodes _ _ _ Hn) as Hone.
  split_and!; [lia|done|by unfold badge; rewrite Hk|].
  intros Hmarker. unfold badge.
  rewrite (split_node_single splitNodes _ _ _ Hn Hmarker).
  by rewrite bool_decide_eq_false_2 by lia.
Qed.

Lemma badge_counts_distinct_threads_witness :
  ∃ n, nodeAt (buildGraph [Tests.d1; Tests.d2] []) [0%nat] = Some n ∧
       badge n = Some 2%nat.
Proof.
  eexists. split; [reflexivity|].
  destruct (badge_counts_distinct_threads [Tests.d1; Tests.d2] [] [0%nat] _ eq_refl)
    as (_ & _ & Hbadge & _).
  rewrite Hbadge. reflexivity.
Defined.

(** X7: the thread ids only get fewer from the root to the leaves: every
    thread id on a node is on each of its ancestors. *)
Theorem threadIds_of_descendant_subseteq (threadsData : list ThreadData.t)
    (splitNodes : list string) (p q : list nat) (n c : GraphNode.t) :
  nodeAt (buildGraph threadsData splitNodes) p = Some n →
  nodeAt (buildGraph threadsData splitNodes) (p ++ q) = Some c →
  GraphNode.threadIds c ⊆ GraphNode.threadIds n.
Proof.
  intros Hn Hc t Ht.
  apply (threadIds_passing splitNodes _ _ _ Hc) in Ht as (i & thread & Hi & Hid & Hp).
  apply (threadIds_passing splitNodes _ _ _ Hn). exists i, thread.
  split_and!; [done..|]. by eapply prefix_app_l.
Qed.

Lemma threadIds_of_descendant_subseteq_witness :
  ∃ n c, nodeAt (buildGraph [Tests.d1; Tests.d2] []) [0%nat] = Some n ∧
         nodeAt (buildGraph [Tests.d1; Tests.d2] []) [0%nat; 1%nat] = Some c ∧
         GraphNode.threadIds c ⊆ GraphNode.threadIds n.
Proof.
  eexists _, _. split; [reflexivity|]. split; [reflexivity|].
  apply (threadIds_of_descendant_subseteq [Tests.d1; Tests.d2] [] [0%nat] [1%nat]);
    reflexivity.
Defined.

Lemma shared_prefix_same_call_sites (threadsData : list ThreadData.t)
    (splitNodes : list string) (i j : nat) (ti tj : ThreadData.t)
    (p : list nat) (d : nat) :
  threadsData !! i = Some ti → threadsData !! j = Some tj →
  p `prefix_of` threadWalk threadsData splitNodes i →
  p `prefix_of` threadWalk threadsData splitNodes j →
  (d < length p)%nat →
  ∃ fi fj, ThreadData.frames ti !! d = Some fi ∧
           ThreadData.frames tj !! d = Some fj ∧ sameCallSite fi fj.
Proof.
  intros Hi Hj Hpi Hpj Hd.
  pose proof (prefix_length _ _ Hpi) as Hli.
  pose proof (prefix_length _ _ Hpj) as Hlj.
  rewrite (threadWalk_length splitNodes _ _ _ Hi) in Hli.
  rewrite (threadWalk_length splitNodes _ _ _ Hj) in Hlj.
  destruct (lookup_lt_is_Some_2 (ThreadData.frames ti) d) as [fi Hfi]; [lia|].
  destruct (lookup_lt_is_Some_2 (ThreadData.frames tj) d) as [fj Hfj]; [lia|].
  exists fi, fj. split_and!; [done..|].
  destruct (threadWalk_frames splitNodes _ _ _ _ _ Hi Hfi) as (ni & Hni & Hsi).
  destruct (threadWalk_frames splitNodes _ _ _ _ _ Hj Hfj) as (nj & Hnj & Hsj).
  rewrite (prefix_take_eq p) in Hni, Hnj by (done || lia).
  assert (ni = nj) as -> by congruence.
  apply isSameFrame_true in Hsi as (? & ? & ? & ?).
  apply isSameFrame_true in Hsj as (? & ? & ? & ?).
  unfold sameCallSite. split_and!; congruence.
Qed.


(** X8: threads are merged only where their call sites are the same: when
    the paths of two threads reach the same node, the two threads have, at
    every depth down to that node, frames with the same name, line, column
    and source path. *)
Theorem shared_node_same_call_sites (threadsData : list ThreadData.t)
    (splitNodes : list string) (i j : nat) (ti tj : ThreadData.t)
    (p : list nat) (d : nat) :
  threadsData !! i = Some ti → threadsData !! j = Some tj →
  p `prefix_of` threadWalk threadsData splitNodes i →
  p `prefix_of` threadWalk threadsData splitNodes j →
  (d < length p)%nat →
  ∃ fi fj, ThreadData.frames ti !! d = Some fi ∧
           ThreadData.frames tj !! d = Some fj ∧ sameCallSite fi fj.
Proof. apply shared_prefix_same_call_sites. Qed.

Lemma shared_node_same_call_sites_witness :
  ∃ fi fj, ThreadData.frames Tests.t1 !! 1%nat = Some fi ∧
           ThreadData.frames Tests.t2 !! 1%nat = Some fj ∧ sameCallSite fi fj.
Proof.
  apply (shared_node_same_call_sites [Tests.t1; Tests.t2] [] 0 1 Tests.t1 Tests.t2
           [0%nat; 0%nat] 1 eq_refl eq_refl).
  - by exists [0%nat].
  - by exists [0%nat].
  - simpl. lia.
Defined.

(** ** Where threads meet and part *)

Section merge.
Context (splitNodes : list string).
Implicit Types (threads : list ThreadData.t) (thread : ThreadData.t).
Implicit Types (n : GraphNode.t) (p q : list nat) (level : list GraphNode.t).

Lemma buildGraph_levels_distinct threads p level :
  levelAt (buildGraph threads splitNodes) p = Some level → distinctSiblings level.
Proof.
  revert threads p level. apply buildGraph_level_ind.
  - by intros i j ni nj Hi.
  - intros thread frames level. apply distinctSiblings_insertFrames.
Qed.

Lemma threadWalk_take_threads threads i j :
  (i < j)%nat →
  threadWalk (take j threads) splitNodes i = threadWalk threads splitNodes i.
Proof.
  intros Hij. unfold threadWalk.
  by rewrite lookup_take_lt, take_take, Nat.min_l by lia.
Qed.

Lemma isSameFrame_trans_raw (a b : StackFrame.t) (f : RawFrame.t) :
  isSameFrame a f = true → isSameFrame b f = true →
  isSameFrame a (StackFrame.raw b) = true.
Proof.
  rewrite !isSameFrame_true. simpl. intuition congruence.
Qed.

Lemma isSameFrame_sameCallSite (a : StackFrame.t) (f g : RawFrame.t) :
  sameCallSite f g → isSameFrame a f = isSameFrame a g.
Proof.
  intros (Hn & Hl & Hc & Hp). unfold isSameFrame. by rewrite Hn, Hl, Hc, Hp.
Qed.

Lemma mergeable_sameCallSite (f g : RawFrame.t) :
  sameCallSite f g → mergeable splitNodes f → mergeable splitNodes g.
Proof.
  intros Hsite%sameCallSite_canonicalId. unfold mergeable, shouldSplit.
  by rewrite Hsite.
Qed.

(** A path of nodes that [find] accepts for the first frames of a thread is
    the path that the thread takes: in a sibling list without two
    non-split nodes of one frame, [find] has one node to return. *)
Lemma walk_follows thread level frames q :
  (∀ p lv, levelAt level p = Some lv → distinctSiblings lv) →
  (length q ≤ length frames)%nat →
  (∀ d f, (d < length q)%nat → frames !! d = Some f →
     shouldSplit splitNodes f = false ∧
     ∃ n, nodeAt level (take (S d) q) = Some n ∧ reusable f n = true) →
  take (length q) (walk splitNodes thread frames level) = q.
Proof.
  revert level frames. induction q as [|a q IH]; intros level frames Hlv Hlen Hq; [done|].
  destruct frames as [|f rest]; [simpl in Hlen; lia|].
  destruct (Hq 0%nat f) as (Hsplit & n0 & Hn0 & Hre0); [simpl; lia|done|].
  simpl in Hn0. destruct (level !! a) as [n0'|] eqn:Ha; [|done]. injection Hn0 as ->.
  cbn [walk]. unfold findNode. rewrite Hsplit.
  destruct (list_find _ level) as [[i node]|] eqn:Hfind.
  2: { apply list_find_None in Hfind. by eapply Forall_lookup_1 in Hfind. }
  apply list_find_Some in Hfind as (Hi & Hre & _).
  assert (i = a) as ->.
  { destruct (decide (i = a)) as [|Hne]; [done|].
    apply andb_true_iff in Hre as [Hsame Hns].
    apply andb_true_iff in Hre0 as [Hsame0 Hns0].
    pose proof (Hlv [] level eq_refl i a node n0 Hi Ha Hne Hns Hns0) as Hdist.
    rewrite (isSameFrame_trans_raw _ _ f) in Hdist; done. }
  assert (node = n0) as -> by congruence.
  simpl. f_equal. apply IH.
  - intros p lv Hp. apply (Hlv (a :: p)). simpl. by rewrite Ha.
  - simpl in Hlen. lia.
  - intros d g Hd Hg. destruct (Hq (S d) g) as (Hsg & n & Hn & Hre'); [simpl; lia|done|].
    split; [done|]. exists n. split; [|done].
    change (take (S (S d)) (a :: q)) with (a :: take (S d) q) in Hn.
    rewrite nodeAt_cons, Ha in Hn. destruct q; [simpl in Hd; lia|done].
Qed.

Lemma common_prefix_merges_lt threads i j ti tj k :
  (i < j)%nat →
  threads !! i = Some ti → threads !! j = Some tj →
  (k ≤ length (ThreadData.frames ti))%nat →
  Forall2 sameCallSite (take k (ThreadData.frames ti)) (take k (ThreadData.frames tj)) →
  Forall (mergeable splitNodes) (take k (ThreadData.frames ti)) →
  take k (threadWalk threads splitNodes i) = take k (threadWalk threads splitNodes j).
Proof.
  intros Hij Hi Hj Hk Hsame Hmerge.
  pose proof (Forall2_length _ _ _ Hsame) as Hlen. rewrite !length_take in Hlen.
  set (forest := buildGraph (take j threads) splitNodes).
  set (q := take k (threadWalk threads splitNodes i)).
  assert (length q = k) as Hq.
  { unfold q. rewrite length_take, (threadWalk_length splitNodes _ _ _ Hi). lia. }
  rewrite (threadWalk_eq threads splitNodes j), Hj. fold forest.
  symmetry. rewrite <-Hq at 1. apply walk_follows.
  - intros p lv. apply buildGraph_levels_distinct.
  - lia.
  - intros d g Hd Hg. rewrite Hq in Hd.
    assert (take k (ThreadData.frames tj) !! d = Some g) as Hg'.
    { by rewrite lookup_take_lt. }
    destruct (Forall2_lookup_r _ _ _ _ _ Hsame Hg') as (f & Hf' & Hsite).
    pose proof (Forall_lookup_1 _ _ _ _ Hmerge Hf') as [Hsplit Hmarker].
    rewrite lookup_take_lt in Hf' by done.
    split.
    { apply (mergeable_sameCallSite f g Hsite). by split. }
    assert (take j threads !! i = Some ti) as Hi' by by rewrite lookup_take_lt.
    destruct (threadWalk_frames splitNodes (take j threads) i ti d f Hi' Hf')
      as (n & Hn & Hnf).
    rewrite threadWalk_take_threads in Hn by done.
    exists n. split.
    { unfold q. by rewrite take_take, Nat.min_l by lia. }
    unfold reusable. rewrite <-(isSameFrame_sameCallSite _ f g Hsite), Hnf.
    destruct (node_creator splitNodes _ _ _ Hn)
      as (c & tc & fc & _ & _ & _ & _ & Hraw & Hid).
    assert (sameCallSite fc f) as Hcf.
    { rewrite <-Hraw. apply isSameFrame_true in Hnf. exact Hnf. }
    destruct (mergeable_sameCallSite f fc) as [Hsc Hmc].
    { destruct Hcf as (? & ? & ? & ?). by split_and!. }
    { by split. }
    unfold nodeIdFor in Hid. rewrite Hsc in Hid. by rewrite Hid, Hmc.
Qed.

Lemma common_prefix_merges threads i j ti tj k :
  threads !! i = Some ti → threads !! j = Some tj →
  (k ≤ length (ThreadData.frames ti))%nat →
  Forall2 sameCallSite (take k (ThreadData.frames ti)) (take k (ThreadData.frames tj)) →
  Forall (mergeable splitNodes) (take k (ThreadData.frames ti)) →
  take k (threadWalk threads splitNodes i) = take k (threadWalk threads splitNodes j).
Proof.
  intros Hi Hj Hk Hsame Hmerge.
  destruct (Nat.lt_total i j) as [Hlt|[->|Hgt]].
  - by eapply common_prefix_merges_lt.
  - done.
  - symmetry. eapply common_prefix_merges_lt; [done..| | |].
    + apply Forall2_length in Hsame. rewrite !length_take in Hsame. lia.
    + apply Forall2_flip. eapply Forall2_impl; [done|].
      intros f g (? & ? & ? & ?). by split_and!.
    + apply Forall_forall. intros g [d Hg]%list_elem_of_lookup_1.
      destruct (Forall2_lookup_r _ _ _ _ _ Hsame Hg) as (f & Hf & Hsite).
      apply (mergeable_sameCallSite f g Hsite).
      by eapply Forall_lookup_1 in Hmerge.
Qed.
End merge.

(** X9: threads are merged wherever they can be: two threads whose first
    [k] frames have the same call sites, none of them split and none with
    the split marker in its canonical id, take the same path through the
    forest for these [k] frames, in whatever order the threads come and
    whatever the other threads are. If their frames at depth [k] are at
    different call sites, their paths part there. *)
Theorem common_prefix_shares_nodes (threadsData : list ThreadData.t)
    (splitNodes : list string) (i j : nat) (ti tj : ThreadData.t) (k : nat) :
  threadsData !! i = Some ti → threadsData !! j = Some tj →
  (k ≤ length (ThreadData.frames ti))%nat →
  Forall2 sameCallSite (take k (ThreadData.frames ti)) (take k (ThreadData.frames tj)) →
  Forall (mergeable splitNodes) (take k (ThreadData.frames ti)) →
  take k (threadWalk threadsData splitNodes i) =
    take k (threadWalk threadsData splitNodes j) ∧
  (∀ fi fj, ThreadData.frames ti !! k = Some fi → ThreadData.frames tj !! k = Some fj →
     ¬ sameCallSite fi fj →
     take (S k) (threadWalk threadsData splitNodes i) ≠
     take (S k) (threadWalk threadsData splitNodes j)).
Proof.
  intros Hi Hj Hk Hsame Hmerge. split; [by eapply common_prefix_merges|].
  intros fi fj Hfi Hfj Hdiff Heq.
  destruct (threadWalk_take splitNodes _ _ _ k Hi (lookup_lt_Some _ _ _ Hfi))
    as (_ & Hlen & Hpi).
  destruct (threadWalk_take splitNodes _ _ _ k Hj (lookup_lt_Some _ _ _ Hfj))
    as (_ & _ & Hpj).
  simpl in Hpj. rewrite <-Heq in Hpj.
  destruct (shared_prefix_same_call_sites threadsData splitNodes i j ti tj _ k
              Hi Hj Hpi Hpj) as (fi' & fj' & Hfi' & Hfj' & Hsite); [lia|].
  apply Hdiff. congruence.
Qed.

Lemma common_prefix_shares_nodes_witness :
  take 1 (threadWalk [Tests.d1; Tests.d2] [] 0) =
    take 1 (threadWalk [Tests.d1; Tests.d2] [] 1) ∧
  take 2 (threadWalk [Tests.d1; Tests.d2] [] 0) ≠
    take 2 (threadWalk [Tests.d1; Tests.d2] [] 1).
Proof.
  destruct (common_prefix_shares_nodes [Tests.d1; Tests.d2] [] 0 1 Tests.d1 Tests.d2 1
              eq_refl eq_refl) as [Hsame Hpart].
  - simpl. lia.
  - by repeat constructor.
  - by repeat constructor.
  - split; [exact Hsame|].
    apply (Hpart _ _ eq_refl eq_refl). intros (Hname & _). discriminate.
Defined.

(** ** The size of the forest *)

Section size.
Context (splitNodes : list string).
Implicit Types (threads : list ThreadData.t) (thread : ThreadData.t).
Implicit Types (n : GraphNode.t) (level : list GraphNode.t).

Lemma nodeSize_withChildren n cs : nodeSize (withChildren n cs) = S (forestSize cs).
Proof. done. Qed.

Lemma nodeSize_children n : nodeSize n = S (forestSize (GraphNode.children n)).
Proof. by destruct n. Qed.

Lemma forestSize_insert level i n n' :
  level !! i = Some n →
  (forestSize (<[i := n']> level) + nodeSize n = forestSize level + nodeSize n')%nat.
Proof.
  unfold forestSize. revert i. induction level as [|m level IH]; intros [|i] Hi;
    simplify_eq/=; [lia|].
  specialize (IH i Hi). lia.
Qed.

Lemma forestSize_snoc level n :
  forestSize (level ++ [n]) = (forestSize level + nodeSize n)%nat.
Proof. unfold forestSize. rewrite sum_list_with_app. simpl. lia. Qed.

(** Placing the frames of a thread removes no node and adds at most one
    node for each frame. *)
Lemma forestSize_insertFrames thread frames level :
  (forestSize level ≤ forestSize (insertFrames splitNodes thread frames level)
     ≤ forestSize level + length frames)%nat.
Proof.
  revert level. induction frames as [|frame rest IH]; intros level; [simpl; lia|].
  cbn [insertFrames]. destruct (findNode _ _ _) as [[i node]|] eqn:Hfind.
  - apply findNode_Some in Hfind as (Hi & _).
    pose proof (forestSize_insert level i node
      (withChildren (addThread thread node)
         (insertFrames splitNodes thread rest
            (GraphNode.children (addThread thread node)))) Hi) as Hsz.
    rewrite nodeSize_withChildren, (nodeSize_children node), addThread_children in Hsz.
    specialize (IH (GraphNode.children node)). simpl. lia.
  - rewrite forestSize_snoc, nodeSize_withChildren.
    cbn [GraphNode.children addThread newNode].
    specialize (IH []). change (forestSize []) with 0%nat in IH.
    cbn [length]. lia.
Qed.

Lemma length_insertFrames thread frames level :
  (length (insertFrames splitNodes thread frames level) ≤
   length level + (if decide (frames = []) then 0 else 1))%nat.
Proof.
  destruct frames as [|frame rest]; [simpl; lia|].
  cbn [insertFrames]. destruct (findNode _ _ _) as [[i node]|].
  - rewrite length_insert. simpl. lia.
  - rewrite length_app. simpl. lia.
Qed.

Lemma forestSize_buildGraph threads :
  (forestSize (buildGraph threads splitNodes) ≤
   sum_list_with (λ thread, length (ThreadData.frames thread)) threads)%nat.
Proof.
  induction threads as [|thread threads IH] using rev_ind; [done|].
  rewrite buildGraph_snoc, insertThread_eq, sum_list_with_app. simpl.
  pose proof (forestSize_insertFrames thread (ThreadData.frames thread)
                (buildGraph threads splitNodes)). lia.
Qed.

Lemma length_buildGraph threads :
  (length (buildGraph threads splitNodes) ≤
   length (filter (λ thread, ThreadData.frames thread ≠ []) threads))%nat.
Proof.
  induction threads as [|thread threads IH] using rev_ind; [done|].
  rewrite buildGraph_snoc, insertThread_eq, filter_app, length_app.
  pose proof (length_insertFrames thread (ThreadData.frames thread)
                (buildGraph threads splitNodes)) as Hlen.
  rewrite filter_cons, filter_nil.
  destruct (decide (ThreadData.frames thread = [])) as [Hnil|Hnil].
  - rewrite decide_False by (by intros []). simpl. lia.
  - rewrite decide_True by done. simpl. lia.
Qed.
End size.

(** X10: the forest is never larger than its input: it has at most one
    node for each frame of the threads, and at most one root for each
    thread that has a frame; and one more thread removes no node and adds
    at most one node for each of its frames. *)
Theorem buildGraph_size_bounds (threadsData : list ThreadData.t)
    (splitNodes : list string) (thread : ThreadData.t) :
  (forestSize (buildGraph threadsData splitNodes) ≤
   sum_list_with (λ thread, length (ThreadData.frames thread)) threadsData)%nat ∧
  (length (buildGraph threadsData splitNodes) ≤
   length (filter (λ thread, ThreadData.frames thread ≠ []) threadsData))%nat ∧
  (forestSize (buildGraph threadsData splitNodes) ≤
   forestSize (buildGraph (threadsData ++ [thread]) splitNodes) ≤
   forestSize (buildGraph threadsData splitNodes) +
     length (ThreadData.frames thread))%nat.
Proof.
  split_and!; [apply forestSize_buildGraph|apply length_buildGraph|..];
    rewrite buildGraph_snoc, insertThread_eq; apply forestSize_insertFrames.
Qed.

(** X11: the forest is as high as the longest stack: there is a node at
    depth [d] exactly when some thread has more than [d] frames. *)
Theorem buildGraph_height (threadsData : list ThreadData.t)
    (splitNodes : list string) (d : nat) :
  (∃ p n, length p = S d ∧ nodeAt (buildGraph threadsData splitNodes) p = Some n) ↔
  (∃ thread, thread ∈ threadsData ∧ (d < length (ThreadData.frames thread))%nat).
Proof.
  split.
  - intros (p & n & Hlen & Hn).
    destruct (node_creator splitNodes _ _ _ Hn)
      as (i & thread & frame & Hi & _ & _ & Hf & _).
    exists thread. split; [by eapply list_elem_of_lookup_2|].
    apply lookup_lt_Some in Hf. lia.
  - intros (thread & [i Hi]%list_elem_of_lookup_1 & Hd).
    destruct (lookup_lt_is_Some_2 _ _ Hd) as [frame Hf].
    destruct (threadWalk_frames splitNodes _ _ _ _ _ Hi Hf) as (n & Hn & _).
    destruct (threadWalk_take splitNodes _ _ _ d Hi Hd) as (_ & Hlen & _).
    by eexists _, n.
Qed.

(** ** The order of siblings *)

Section order.
Context (splitNodes : list string).
Implicit Types (threads : list ThreadData.t) (thread : ThreadData.t).
Implicit Types (n : GraphNode.t) (p : list nat) (level : list GraphNode.t).

Lemma nodeAt_cons_Some level i p n :
  p ≠ [] → level !! i = Some n →
  nodeAt level (i :: p) = nodeAt (GraphNode.children n) p.
Proof. intros Hp Hi. rewrite nodeAt_cons, Hi. by destruct p. Qed.

(** A node that the thread creates is pushed at the end of its sibling
    list: every smaller index has a node already. *)
Lemma walk_new_index thread frames level p a b :
  p ++ [b] `prefix_of` walk splitNodes thread frames level →
  nodeAt level (p ++ [b]) = None → (a < b)%nat →
  is_Some (nodeAt level (p ++ [a])).
Proof.
  revert level frames. induction p as [|c p IH]; intros level frames Hp Hnone Hab.
  - destruct frames as [|frame rest]; [by apply prefix_nil_inv in Hp|].
    cbn [walk] in Hp. simpl in Hnone |- *.
    destruct (findNode _ _ _) as [[i node]|] eqn:Hfind.
    + apply findNode_Some in Hfind as (Hi & _).
      apply prefix_cons_inv_1 in Hp as ->. by rewrite Hi in Hnone.
    + apply prefix_cons_inv_1 in Hp as ->.
      destruct (lookup_lt_is_Some_2 level a Hab) as [n ->]. by eexists.
  - destruct frames as [|frame rest]; [by apply prefix_nil_inv in Hp|].
    cbn [walk] in Hp. rewrite <-!app_comm_cons in *.
    assert (∀ x, p ++ [x] ≠ []) as Hne by (by intros x; destruct p).
    destruct (findNode _ _ _) as [[i node]|] eqn:Hfind.
    + apply findNode_Some in Hfind as (Hi & _).
      pose proof (prefix_cons_inv_1 _ _ _ _ Hp) as ->.
      apply prefix_cons_inv_2 in Hp.
      rewrite (nodeAt_cons_Some _ _ (p ++ [b]) node) in Hnone by done.
      rewrite (nodeAt_cons_Some _ _ (p ++ [a]) node) by done.
      by eapply IH.
    + apply prefix_cons_inv_2 in Hp.
      destruct (IH [] rest Hp (nodeAt_nil_level _) Hab) as [n Hn].
      by rewrite nodeAt_nil_level in Hn.
Qed.

Lemma firstPassing_lookup threads i p :
  p ≠ [] → firstPassing threads splitNodes i p → is_Some (threads !! i).
Proof.
  intros Hnil [Hp _]. destruct (threads !! i) eqn:Hi; [by eexists|].
  apply lookup_ge_None in Hi. rewrite threadWalk_ge in Hp by done.
  by apply prefix_nil_inv in Hp.
Qed.

(** Before the first thread that reaches a position is placed, the
    position holds no node. *)
Lemma firstPassing_fresh threads j p :
  firstPassing threads splitNodes j p →
  nodeAt (buildGraph (take j threads) splitNodes) p = None.
Proof.
  intros [_ Hfirst]. destruct (nodeAt _ p) as [n|] eqn:Hn; [|done].
  destruct (node_creator splitNodes _ _ _ Hn) as (k & thread & _ & Hk & Hp & _).
  apply lookup_take_Some in Hk as [_ Hk].
  rewrite threadWalk_take_threads in Hp by done. by destruct (Hfirst k).
Qed.

Lemma sibling_order threads p a b i j :
  (a < b)%nat →
  firstPassing threads splitNodes i (p ++ [a]) →
  firstPassing threads splitNodes j (p ++ [b]) →
  (i < j)%nat.
Proof.
  intros Hab Hi Hj.
  destruct (Nat.lt_total i j) as [Hlt|[->|Hgt]]; [done| |].
  - destruct Hi as [[ri Hi] _], Hj as [[rj Hj] _]. rewrite Hi in Hj.
    rewrite <-!app_assoc in Hj. apply app_inv_head in Hj. simplify_eq/=. lia.
  - assert (p ++ [b] ≠ []) as Hnil by (by destruct p).
    destruct (firstPassing_lookup _ _ _ Hnil Hj) as [tj Htj].
    pose proof (firstPassing_fresh _ _ _ Hj) as Hfresh.
    destruct Hj as [Hpj _]. rewrite threadWalk_eq, Htj in Hpj.
    destruct (walk_new_index _ _ _ _ a b Hpj Hfresh Hab) as [n Hn].
    destruct (node_creator splitNodes _ _ _ Hn) as (k & thread & _ & Hk & Hp & _).
    apply lookup_take_Some in Hk as [_ Hk].
    rewrite threadWalk_take_threads in Hp by done.
    destruct Hi as [_ Hfirst]. destruct (Hfirst k); [lia|done].
Qed.
End order.

(** X12: siblings stand in the order in which their first threads come in
    the input: of two nodes of one sibling list, the one with the smaller
    index was created by the earlier thread. *)
Theorem siblings_in_order_of_first_thread (threadsData : list ThreadData.t)
    (splitNodes : list string) (p : list nat) (a b i j : nat) :
  (a < b)%nat →
  firstPassing threadsData splitNodes i (p ++ [a]) →
  firstPassing threadsData splitNodes j (p ++ [b]) →
  (i < j)%nat.
Proof. apply sibling_order. Qed.

Lemma siblings_in_order_of_first_thread_witness : (0 < 1)%nat.
Proof.
  apply (siblings_in_order_of_first_thread [Tests.d1; Tests.d2] [] [0%nat] 0 1 0 1).
  - lia.
  - split; [by exists []|]. intros k Hk. lia.
  - split; [by exists []|]. intros k Hk Hpre.
    assert (k = 0%nat) as -> by lia. vm_compute in Hpre.
    destruct Hpre as [r Hr]. discriminate.
Defined.

(** ** Threads on a chain, by their frames *)

Section followers.
Context (splitNodes : list string).
Implicit Types (threads : list ThreadData.t) (thread : ThreadData.t).
Implicit Types (n : GraphNode.t) (p q : list nat) (level : list GraphNode.t).

Lemma followsChain_lookup thread frames level p :
  followsChain splitNodes thread frames level p = true ↔
  ∀ d, (d < length p)%nat →
    ∃ frame n,
      frames !! d = Some frame ∧
      nodeAt level (take (S d) p) = Some n ∧
      isSameFrame (GraphNode.frame n) frame = true ∧
      GraphNode.id n = nodeIdFor splitNodes thread frame.
Proof.
  revert frames level. induction p as [|i p IH]; intros frames level.
  { split; [intros _ d Hd; simpl in Hd; lia|intros _; reflexivity]. }
  cbn [followsChain]. destruct frames as [|frame rest].
  { split; [done|]. intros H.
    destruct (H 0%nat) as (f & n & Hf & _); [simpl; lia|done]. }
  destruct (level !! i) as [n|] eqn:Hi.
  2:{ split; [done|]. intros H.
      destruct (H 0%nat) as (f & n & _ & Hn & _); [simpl; lia|].
      change (take 1 (i :: p)) with [i] in Hn. rewrite nodeAt_cons, Hi in Hn. done. }
  rewrite !andb_true_iff, bool_decide_eq_true, IH. split.
  - intros [[Hs Hid] Hrest] [|d] Hd.
    + exists frame, n. change (take 1 (i :: p)) with [i]. rewrite nodeAt_cons, Hi. done.
    + destruct (Hrest d) as (f & m & Hf & Hm & Hsm); [simpl in Hd; lia|].
      exists f, m. split; [done|]. split; [|done].
      rewrite firstn_cons, (nodeAt_cons_Some _ _ _ n); [done| |done].
      destruct p; [simpl in Hd; lia|done].
  - intros H. split; [|].
    + destruct (H 0%nat) as (f & m & Hf & Hm & Hs & Hid); [simpl; lia|].
      change (take 1 (i :: p)) with [i] in Hm. rewrite nodeAt_cons, Hi in Hm.
      by simplify_eq/=.
    + intros d Hd.
      destruct (H (S d)) as (f & m & Hf & Hm & Hsm); [simpl; lia|].
      exists f, m. split; [done|]. split; [|done].
      rewrite firstn_cons, (nodeAt_cons_Some _ _ _ n) in Hm; [done| |done].
      destruct p; [simpl in Hd; lia|done].
Qed.

Lemma isSameFrame_raw_sameCallSite (a : StackFrame.t) (f : RawFrame.t) :
  isSameFrame a f = true → sameCallSite (StackFrame.raw a) f.
Proof. by intros H%isSameFrame_true. Qed.

Lemma shouldSplit_sameCallSite (f g : RawFrame.t) :
  sameCallSite f g → shouldSplit splitNodes f = shouldSplit splitNodes g.
Proof. intros H%sameCallSite_canonicalId. unfold shouldSplit. by rewrite H. Qed.

Lemma nodeIdFor_sameCallSite thread (f g : RawFrame.t) :
  sameCallSite f g → shouldSplit splitNodes g = false →
  ∀ thread', nodeIdFor splitNodes thread' f = nodeIdFor splitNodes thread g.
Proof.
  intros Hsite Hg thread'. unfold nodeIdFor.
  by rewrite (shouldSplit_sameCallSite _ _ Hsite), Hg, (sameCallSite_canonicalId _ _ Hsite).
Qed.

(** On the path of a thread every node has the frame of the thread and the
    id that the frame has for the thread. *)
Lemma threadWalk_followsChain threads i thread :
  threads !! i = Some thread →
  ∀ p, p `prefix_of` threadWalk threads splitNodes i →
  followsChain splitNodes thread (ThreadData.frames thread)
    (buildGraph threads splitNodes) p = true.
Proof.
  intros Hi p Hp. apply followsChain_lookup. intros d Hd.
  pose proof (prefix_length _ _ Hp) as Hlen.
  rewrite (threadWalk_length splitNodes _ _ _ Hi) in Hlen.
  destruct (lookup_lt_is_Some_2 (ThreadData.frames thread) d) as [frame Hf]; [lia|].
  destruct (threadWalk_frames splitNodes _ _ _ _ _ Hi Hf) as (n & Hn & Hsame).
  exists frame, n. split; [done|].
  rewrite <-(prefix_take_eq p (threadWalk threads splitNodes i)) by (done || lia).
  split_and!; [done..|].
  destruct (shouldSplit splitNodes frame) eqn:Hs.
  - destruct (split_node splitNodes _ _ _ _ _ Hi Hf Hs) as (n' & Hn' & Hid & _).
    assert (n' = n) as -> by congruence.
    by rewrite nodeIdFor_split.
  - destruct (node_creator splitNodes _ _ _ Hn) as (c & tc & fc & _ & _ & _ & _ & Hraw & ->).
    apply nodeIdFor_sameCallSite; [|done].
    rewrite <-Hraw. by apply isSameFrame_raw_sameCallSite.
Qed.

(** A node with the frame and the id of a split frame of a thread has the
    id of that thread only. *)
Lemma split_id_owner threads q m thread frame :
  nodeAt (buildGraph threads splitNodes) q = Some m →
  shouldSplit splitNodes frame = true →
  isSameFrame (GraphNode.frame m) frame = true →
  GraphNode.id m = nodeIdFor splitNodes thread frame →
  GraphNode.threadIds m = [ThreadData.id thread].
Proof.
  intros Hm Hs Hsame Hid.
  destruct (node_creator splitNodes _ _ _ Hm)
    as (c & tc & fc & Hc & Hpc & _ & Hfc & Hraw & Hidc).
  assert (sameCallSite fc frame) as Hsite.
  { rewrite <-Hraw. by apply isSameFrame_raw_sameCallSite. }
  assert (shouldSplit splitNodes fc = true) as Hsc.
  { by rewrite (shouldSplit_sameCallSite _ _ Hsite). }
  rewrite Hidc, !nodeIdFor_split, (sameCallSite_canonicalId _ _ Hsite) in Hid by done.
  do 2 apply String.app_inj in Hid. apply pretty_Z_inj in Hid.
  destruct (split_node splitNodes _ _ _ _ _ Hc Hfc Hsc) as (m' & Hm' & _ & _ & Hids & _).
  assert (q ≠ []) as Hq by (by intros ->).
  assert (S (length q - 1) = length q) as Hlen.
  { destruct q; [done|simpl; lia]. }
  rewrite Hlen, (prefix_take_eq q), take_ge in Hm' by (done || lia).
  assert (m' = m) as -> by congruence.
  by rewrite Hids, Hid.
Qed.

Lemma followsChain_member threads i thread p n :
  threads !! i = Some thread →
  markerOnlyBySplit splitNodes thread →
  nodeAt (buildGraph threads splitNodes) p = Some n →
  followsChain splitNodes thread (ThreadData.frames thread)
    (buildGraph threads splitNodes) p = true →
  ThreadData.id thread ∈ GraphNode.threadIds n.
Proof.
  intros Hi Hmark Hn Hchain. rewrite followsChain_lookup in Hchain.
  assert (p ≠ []) as Hp by (by intros ->).
  assert (length p ≤ length (ThreadData.frames thread))%nat as Hlen.
  { destruct (Hchain (length p - 1)%nat) as (f & _ & Hf%lookup_lt_Some & _).
    - destruct p; [done|simpl; lia].
    - lia. }
  destruct (decide (Forall (λ f, shouldSplit splitNodes f = false)
                      (take (length p) (ThreadData.frames thread)))) as [Hno|Hsome].
  - (* no split frame down to the node: the thread takes the path of the
       thread that made the node *)
    destruct (node_creator splitNodes _ _ _ Hn) as (c & tc & fc & Hc & Hpc & _).
    pose proof (prefix_length _ _ Hpc) as Hlenc.
    rewrite (threadWalk_length splitNodes _ _ _ Hc) in Hlenc.
    apply (threadIds_passing splitNodes _ _ _ Hn). exists i, thread.
    split_and!; [done..|].
    rewrite <-(take_ge p (length p)) by done.
    rewrite <-(prefix_take_eq p (threadWalk threads splitNodes c)) by (done || lia).
    rewrite <-(common_prefix_merges splitNodes threads i c thread tc (length p) Hi Hc Hlen).
    + apply prefix_take.
    + apply Forall2_same_length_lookup_2.
      { rewrite !length_take. lia. }
      intros d f g [Hf Hd]%lookup_take_Some [Hg _]%lookup_take_Some.
      destruct (Hchain d Hd) as (f' & m & Hf' & Hm & Hsame & _).
      assert (f' = f) as -> by congruence.
      destruct (threadWalk_frames splitNodes _ _ _ _ _ Hc Hg) as (m' & Hm' & Hsame').
      rewrite (prefix_take_eq p) in Hm' by (done || lia).
      assert (m' = m) as -> by congruence.
      apply isSameFrame_true in Hsame as (? & ? & ? & ?).
      apply isSameFrame_true in Hsame' as (? & ? & ? & ?).
      unfold sameCallSite. split_and!; congruence.
    + apply Forall_lookup_2. intros d f Hdf.
      pose proof (Forall_lookup_1 _ _ _ _ Hno Hdf) as Hsf.
      apply lookup_take_Some in Hdf as [Hf _].
      split; [done|]. by apply (Forall_lookup_1 _ _ _ _ Hmark Hf).
  - (* a split frame on the way: its node has this thread only, and so has
       every node below it *)
    apply not_Forall_Exists in Hsome; [|apply _].
    apply Exists_exists in Hsome as (f & [d Hdf]%list_elem_of_lookup_1 & Hs).
    apply not_false_is_true in Hs.
    apply lookup_take_Some in Hdf as [Hf Hd].
    destruct (Hchain d Hd) as (f' & m & Hf' & Hm & Hsame & Hid).
    assert (f' = f) as -> by congruence.
    pose proof (split_id_owner _ _ _ _ _ Hm Hs Hsame Hid) as Hids.
    pose proof (threadIds_nonempty splitNodes _ _ _ Hn) as Hne.
    destruct (GraphNode.threadIds n) as [|t ts] eqn:Hts; [simpl in Hne; lia|].
    assert (t ∈ GraphNode.threadIds n) as Ht by (rewrite Hts; left).
    apply (threadIds_passing splitNodes _ _ _ Hn) in Ht as (j & tj & Hj & Hidj & Hpj).
    assert (t ∈ GraphNode.threadIds m) as Htm.
    { apply (threadIds_passing splitNodes _ _ _ Hm). exists j, tj.
      split_and!; [done..|]. etrans; [apply prefix_take|done]. }
    rewrite Hids in Htm. apply list_elem_of_singleton in Htm as ->. left.
Qed.
End followers.

(** X17: the frame-sequence reading of the thread ids, where the split
    marker comes from splitting only. When no frame outside the split set
    has [::split::] in its canonical id, the thread ids on a node are the
    ids of exactly the threads of the input whose frame sequence passes
    through the chain from the root to the node: at every depth of the
    chain the node has the frame of the thread at that depth, under
    [isSameFrame], and the id of that frame for the thread. *)
Theorem threadIds_are_chain_followers (threadsData : list ThreadData.t)
    (splitNodes : list string) (p : list nat) (n : GraphNode.t) :
  Forall (markerOnlyBySplit splitNodes) threadsData →
  nodeAt (buildGraph threadsData splitNodes) p = Some n →
  ∀ t, t ∈ GraphNode.threadIds n ↔
    ∃ thread, thread ∈ threadsData ∧ ThreadData.id thread = t ∧
      followsChain splitNodes thread (ThreadData.frames thread)
        (buildGraph threadsData splitNodes) p = true.
Proof.
  intros Hmark Hn t. split.
  - intros Ht.
    apply (threadIds_passing splitNodes _ _ _ Hn) in Ht as (i & thread & Hi & Hid & Hp).
    exists thread. split; [by eapply list_elem_of_lookup_2|]. split; [done|].
    by eapply threadWalk_followsChain.
  - intros (thread & Hin & <- & Hchain).
    pose proof (proj1 (Forall_forall _ _) Hmark _ Hin) as Hth.
    apply list_elem_of_lookup_1 in Hin as [i Hi].
    by eapply followsChain_member.
Qed.

Lemma threadIds_are_chain_followers_witness :
  ∃ n, nodeAt (buildGraph [Tests.d1; Tests.d2] []) [0%nat; 1%nat] = Some n ∧
       (2 ∈ GraphNode.threadIds n ↔
        ∃ thread, thread ∈ [Tests.d1; Tests.d2] ∧ ThreadData.id thread = 2 ∧
          followsChain [] thread (ThreadData.frames thread)
            (buildGraph [Tests.d1; Tests.d2] []) [0%nat; 1%nat] = true).
Proof.
  eexists. split; [reflexivity|].
  apply (threadIds_are_chain_followers [Tests.d1; Tests.d2] [] [0%nat; 1%nat]).
  - repeat (constructor; try (intros _; reflexivity)).
  - reflexivity.
Defined.



(** X14: no node of the forest has the id [root]: every id contains a
    colon. So the web view, which leaves out the node with that id, never
    leaves out a frame. *)
Theorem forest_node_is_not_virtual_root (threadsData : list ThreadData.t)
    (splitNodes : list string) (p : list nat) (n : GraphNode.t) :
  nodeAt (buildGraph threadsData splitNodes) p = Some n →
  includes (GraphNode.id n) ":" = true ∧ isVirtualRoot n = false.
Proof.
  intros Hn.
  assert (includes (GraphNode.id n) ":" = true) as Hcolon.
  { destruct (node_creator splitNodes _ _ _ Hn)
      as (i & thread & frame & _ & _ & _ & _ & _ & ->).
    assert (includes (canonicalId frame) ":" = true) as Hc.
    { unfold canonicalId. apply includes_infix. }
    unfold nodeIdFor. destruct (shouldSplit splitNodes frame); [|done].
    apply includes_app_r. unfold splitMarker. apply includes_prefix.
    simpl. by destruct (pretty (ThreadData.id thread)). }
  split; [done|]. unfold isVirtualRoot. apply bool_decide_eq_false.
  intros Hroot. by rewrite Hroot in Hcolon.
Qed.

Lemma forest_node_is_not_virtual_root_witness :
  ∃ n, nodeAt (buildGraph [Tests.t1; Tests.t2] Samples.splitFoo) [0%nat; 1%nat] = Some n ∧
       isVirtualRoot n = false.
Proof.
  eexists. split; [reflexivity|].
  apply (forest_node_is_not_virtual_root [Tests.t1; Tests.t2] Samples.splitFoo
           [0%nat; 1%nat] _ eq_refl).
Defined.

(** ** A thread that is in the forest already *)

Section again.
Context (splitNodes : list string).
Implicit Types (threads : list ThreadData.t) (thread : ThreadData.t).
Implicit Types (n : GraphNode.t) (p q : list nat) (level : list GraphNode.t).

Lemma frame_threadIds_consistent threads p n :
  nodeAt (buildGraph threads splitNodes) p = Some n →
  StackFrame.threadIds (GraphNode.frame n) = GraphNode.threadIds n.
Proof.
  revert threads p n. apply buildGraph_node_ind.
  - by intros n cs Hn.
  - done.
  - intros thread frame n Hn _ _.
    cbn [addThread GraphNode.frame GraphNode.threadIds StackFrame.threadIds].
    by rewrite Hn.
Qed.

Lemma addThread_member thread n :
  ThreadData.id thread ∈ GraphNode.threadIds n →
  StackFrame.threadIds (GraphNode.frame n) = GraphNode.threadIds n →
  addThread thread n = n.
Proof.
  destruct n as [nid [fid fname fsource fline fcolumn fids] cs ids names]. simpl.
  intros Hin ->. unfold addThread. simpl. by rewrite !bool_decide_eq_true_2.
Qed.

(** In a sibling list without two non-split nodes of one frame, [find]
    returns the one node that it can. *)
Lemma findNode_unique level frame a n :
  distinctSiblings level → level !! a = Some n →
  reusable frame n = true → shouldSplit splitNodes frame = false →
  findNode splitNodes frame level = Some (a, n).
Proof.
  intros Hdist Ha Hre Hsplit. unfold findNode. rewrite Hsplit.
  destruct (list_find _ level) as [[i node]|] eqn:Hfind.
  2: { apply list_find_None in Hfind. by eapply Forall_lookup_1 in Hfind. }
  apply list_find_Some in Hfind as (Hi & Hrei & _).
  destruct (decide (i = a)) as [->|Hne]; [congruence|].
  apply andb_true_iff in Hrei as [Hsame Hns].
  apply andb_true_iff in Hre as [Hsame0 Hns0].
  pose proof (Hdist i a node n Hi Ha Hne Hns Hns0) as Hd.
  rewrite (isSameFrame_trans_raw _ _ frame) in Hd; done.
Qed.

Lemma insertFrames_noop thread level frames q :
  (∀ p lv, levelAt level p = Some lv → distinctSiblings lv) →
  length q = length frames →
  (∀ d f, (d < length q)%nat → frames !! d = Some f →
     shouldSplit splitNodes f = false ∧
     ∃ n, nodeAt level (take (S d) q) = Some n ∧ reusable f n = true ∧
          addThread thread n = n) →
  insertFrames splitNodes thread frames level = level.
Proof.
  revert level frames. induction q as [|a q IH]; intros level frames Hlv Hlen Hq.
  { by destruct frames. }
  destruct frames as [|f rest]; [done|].
  destruct (Hq 0%nat f) as (Hsplit & n0 & Hn0 & Hre0 & Hadd0); [simpl; lia|done|].
  simpl in Hn0. destruct (level !! a) as [n0'|] eqn:Ha; [|done]. injection Hn0 as ->.
  cbn [insertFrames].
  rewrite (findNode_unique level f a n0 (Hlv [] level eq_refl) Ha Hre0 Hsplit).
  rewrite Hadd0, IH, withChildren_children; [by apply list_insert_id| | |].
  - intros p lv Hp. apply (Hlv (a :: p)). simpl. by rewrite Ha.
  - simpl in Hlen. lia.
  - intros d g Hd Hg.
    destruct (Hq (S d) g) as (Hsg & n & Hn & Hre' & Hadd); [simpl; lia|done|].
    split; [done|]. exists n. split; [|done].
    change (take (S (S d)) (a :: q)) with (a :: take (S d) q) in Hn.
    rewrite (nodeAt_cons_Some _ _ _ n0) in Hn; [done| |done].
    destruct q; [simpl in Hd; lia|done].
Qed.

(** The node that holds a frame of a thread can be found again for that
    frame, when the frame is not split and has no split marker in its
    canonical id. *)
Lemma threadWalk_reusable threads i thread d frame :
  threads !! i = Some thread → ThreadData.frames thread !! d = Some frame →
  mergeable splitNodes frame →
  ∃ n, nodeAt (buildGraph threads splitNodes)
         (take (S d) (threadWalk threads splitNodes i)) = Some n ∧
       reusable frame n = true ∧ addThread thread n = n.
Proof.
  intros Hi Hf [Hsplit Hmarker].
  destruct (threadWalk_frames splitNodes threads i thread d frame Hi Hf)
    as (n & Hn & Hnf).
  exists n. split; [done|]. split.
  - unfold reusable. rewrite Hnf.
    destruct (node_creator splitNodes _ _ _ Hn)
      as (c & tc & fc & _ & _ & _ & _ & Hraw & Hid).
    assert (sameCallSite frame fc) as Hcf.
    { rewrite <-Hraw. apply isSameFrame_true in Hnf as (? & ? & ? & ?).
      by split_and!. }
    destruct (mergeable_sameCallSite splitNodes frame fc Hcf) as [Hsc Hmc]; [done|].
    unfold nodeIdFor in Hid. rewrite Hsc in Hid. by rewrite Hid, Hmc.
  - apply addThread_member; [|by eapply frame_threadIds_consistent].
    apply (threadIds_passing splitNodes threads _ n Hn). exists i, thread.
    split_and!; [done..|apply prefix_take].
Qed.

Lemma insertThread_again threads i thread :
  threads !! i = Some thread →
  Forall (mergeable splitNodes) (ThreadData.frames thread) →
  insertThread splitNodes (buildGraph threads splitNodes) thread =
  buildGraph threads splitNodes.
Proof.
  intros Hi Hmerge. rewrite insertThread_eq.
  apply (insertFrames_noop _ _ _ (threadWalk threads splitNodes i)).
  - intros p lv. apply buildGraph_levels_distinct.
  - by apply threadWalk_length.
  - intros d f Hd Hf. pose proof (Forall_lookup_1 _ _ _ _ Hmerge Hf) as Hm.
    split; [apply Hm|]. by apply threadWalk_reusable.
Qed.
End again.

(** X15: a thread that the input has twice changes nothing the second
    time: when none of its frames is split or has the split marker in its
    canonical id, the forest with the thread once more at the end of the
    input is the forest without it. *)
Theorem buildGraph_repeated_thread (threadsData : list ThreadData.t)
    (splitNodes : list string) (i : nat) (thread : ThreadData.t) :
  threadsData !! i = Some thread →
  Forall (mergeable splitNodes) (ThreadData.frames thread) →
  buildGraph (threadsData ++ [thread]) splitNodes = buildGraph threadsData splitNodes.
Proof.
  intros Hi Hmerge. rewrite buildGraph_snoc. by eapply insertThread_again.
Qed.

Lemma buildGraph_repeated_thread_witness :
  buildGraph ([Tests.d1; Tests.d2] ++ [Tests.d1]) [] = buildGraph [Tests.d1; Tests.d2] [].
Proof.
  apply (buildGraph_repeated_thread [Tests.d1; Tests.d2] [] 0 Tests.d1 eq_refl).
  by repeat constructor.
Defined.

(** X16: threads with the frame sequence of the first thread, call site by
    call site, none of the frames split and none with the split marker in
    its canonical id, give a single chain: one node for each frame of the
    first thread, each with one child but the last, and each with all the
    threads as members. *)
Theorem identical_stacks_merge_into_one_chain (splitNodes : list string)
    (thread : ThreadData.t) (threads : list ThreadData.t) :
  Forall (λ t, Forall2 sameCallSite (ThreadData.frames t) (ThreadData.frames thread))
    threads →
  Forall (mergeable splitNodes) (ThreadData.frames thread) →
  buildGraph (thread :: threads) splitNodes =
  chain (ThreadData.frames thread) (foldl recordThread ([], []) (thread :: threads)).
Proof. apply full_merge. Qed.

Lemma identical_stacks_merge_into_one_chain_witness :
  buildGraph [Tests.t1; Tests.t2] [] =
  chain (ThreadData.frames Tests.t1) ([1; 2], ["Thread 1"; "Thread 2"]).
Proof.
  apply (identical_stacks_merge_into_one_chain [] Tests.t1 [Tests.t2]).
  - repeat constructor.
  - by repeat constructor.
Defined.
